(** * FireAlarmApp: the alarm-confirmation rendezvous

    A shallow embedding of [notifications.controller.js]: the fan-out of
    push notifications ([notifyAllUsers], the loop of [confirmAlarm]), the
    process-wide [alarmMap] of pending confirmations, the timeout wake of
    [confirmAlarm] and the correlator [logResponse].

    Node runs every handler on one thread: a handler is interrupted only
    at an [await].  [alarmMap] and the response objects are touched only
    in the synchronous stretches after the last [await] of [confirmAlarm]
    before [delay], after [delay], and in the loop of [logResponse]; each
    of those stretches is one atomic step of the model. *)

From Stdlib Require Import ZArith String List Lia Bool Arith DecimalString.
From Stdlib Require Import Ascii Decimal DecimalZ DecimalPos.
Import ListNotations.
Local Open Scope string_scope.
Local Open Scope Z_scope.

(** ** JavaScript values used by the controller *)

Module JS.

(** Numbers are IEEE doubles.  An integer [n : Z] stands for the double
    nearest to it: the integers below 2^53 in absolute value are doubles
    themselves, the others are rounded, ties to even. *)
Definition decimal (n : Z) : string :=
  NilZero.string_of_int (Z.to_int n).

Definition two53 : Z := 9007199254740992.

Definition roundToDouble (a : Z) : Z :=
  if a <? two53 then a
  else
    let e := Z.log2 a - 52 in
    let q := Z.shiftr a e in
    let r := a - Z.shiftl q e in
    let half := Z.shiftl 1 (e - 1) in
    let q' := if (half <? r) || ((r =? half) && Z.odd q) then q + 1 else q in
    Z.shiftl q' e.

(** What rounds to 2^1024 or beyond is [Infinity]. *)
Definition infinity : Z := 2 ^ 1024.

Definition digitsOf (a : Z) : Z := Z.of_nat (String.length (decimal a)).

(** The pairs (s, n) of [Number::toString] for [k] digits: s has k
    digits and s * 10^(n-k) is a number whose double is [x]. *)
Definition candidates (x k : Z) : list (Z * Z) :=
  let d := digitsOf x in
  filter
    (fun c =>
       let '(s, n) := c in
       (k <=? n) && (10 ^ (k - 1) <=? s) && (s <? 10 ^ k)
       && (roundToDouble (s * 10 ^ (n - k)) =? x))
    (flat_map
       (fun n => let p := 10 ^ (n - k) in [(x / p, n); (x / p + 1, n)])
       [d; d + 1]).

Definition distance (x k : Z) (c : Z * Z) : Z :=
  Z.abs (fst c * 10 ^ (snd c - k) - x).

Definition closer (x k : Z) (c best : Z * Z) : bool :=
  (distance x k c <? distance x k best)
  || ((distance x k c =? distance x k best) && Z.even (fst c)
      && negb (Z.even (fst best))).

Definition closest (x k : Z) (cs : list (Z * Z)) : option (Z * Z) :=
  fold_left
    (fun best c =>
       match best with
       | None => Some c
       | Some b => if closer x k c b then Some c else Some b
       end)
    cs None.

(** The least number of digits that gives the double back, and among
    the candidates with that many digits the one closest to [x]. *)
Fixpoint shortest (x : Z) (ks : list Z) : option (Z * Z * Z) :=
  match ks with
  | [] => None
  | k :: rest =>
      match closest x k (candidates x k) with
      | Some (s, n) => Some (s, k, n)
      | None => shortest x rest
      end
  end.

Definition zeros (n : Z) : string :=
  string_of_list_ascii (repeat "0"%char (Z.to_nat n)).

(** [Number::toString] on a double of 2^53 or more: the digits of s and
    n - k zeros up to 21 digits, exponent notation beyond. *)
Definition renderDouble (x : Z) : string :=
  match shortest x (map Z.of_nat (seq 1 17)) with
  | Some (s, k, n) =>
      if n <=? 21 then decimal s ++ zeros (n - k)
      else
        match decimal s with
        | String c EmptyString => String c ("e+" ++ decimal (n - 1))
        | String c rest => String c ("." ++ rest ++ "e+" ++ decimal (n - 1))
        | EmptyString => EmptyString
        end
  | None => decimal x
  end.

(** [Number.prototype.toString] on the double nearest to an integer:
    below 2^53 the decimal digits of the integer itself. *)
Definition Number_toString (n : Z) : string :=
  if Z.abs n <? two53 then decimal n
  else
    let x := roundToDouble (Z.abs n) in
    (if n <? 0 then "-" else "")
      ++ (if infinity <=? x then "Infinity" else renderDouble x).

(** The results of the [Date] getters: an integer, or [NaN] for an
    invalid date. *)
Inductive number :=
| Num (z : Z)
| NaN.

Definition toString (n : number) : string :=
  match n with
  | Num z => Number_toString z
  | NaN => "NaN"
  end.

(** [String.prototype.substring(start)]: a negative [start] counts as 0
    and one beyond the end as the length. *)
Definition substring (start : Z) (s : string) : string :=
  let len := String.length s in
  let from := Z.to_nat (Z.min (Z.max start 0) (Z.of_nat len)) in
  String.substring from (len - from) s.

(** A time value is valid up to 8.64e15 ms around the epoch.  The
    product [unix_timestamp * 1000] is exact below 2^53, and beyond 2^53
    both the product of the integers and the product of their doubles
    are past the bound: the test on the integers is the test on the
    doubles. *)
Definition maxTime : Z := 8640000000000000.

Definition validTime (ms : Z) : bool := Z.abs ms <=? maxTime.

(** Local time: [localTZA] gives the offset of the host's time zone at
    the given instant, in milliseconds to add to UTC (not always whole
    minutes). *)
Definition localTime (localTZA : Z -> Z) (ms : Z) : Z :=
  ms + localTZA ms.

Definition getHours (tz : Z -> Z) (ms : Z) : number :=
  if validTime ms then Num ((localTime tz ms / 3600000) mod 24) else NaN.

Definition getMinutes (tz : Z -> Z) (ms : Z) : number :=
  if validTime ms then Num ((localTime tz ms / 60000) mod 60) else NaN.

Definition getSeconds (tz : Z -> Z) (ms : Z) : number :=
  if validTime ms then Num ((localTime tz ms / 1000) mod 60) else NaN.

(** The values a JSON field of a response body takes in this module. *)
Inductive value :=
| Null
| Bool (b : bool)
| Str (s : string).

End JS.

(** ** unixToDate *)

(** The three locals of [unixToDate] after its two padding branches. *)
Definition unixToDate_fields (tz : Z -> Z) (unix_timestamp : Z)
  : JS.number * string * string :=
  let date := unix_timestamp * 1000 in
  let hours := JS.getHours tz date in
  let minutes := JS.toString (JS.getMinutes tz date) in
  let seconds := JS.toString (JS.getSeconds tz date) in
  let minutes :=
    if (String.length minutes =? 1)%nat then "0" ++ minutes else minutes in
  let seconds :=
    if (String.length seconds =? 1)%nat then "0" ++ minutes else seconds in
  (hours, minutes, seconds).

Definition unixToDate (tz : Z -> Z) (unix_timestamp : Z) : string :=
  let '(hours, minutes, seconds) := unixToDate_fields tz unix_timestamp in
  JS.toString hours ++ ":" ++ JS.substring (-2) minutes
    ++ ":" ++ JS.substring (-2) seconds.

(** ** The store, the push service and the HTTP responses *)

Record alarm := {
  alarm_id : Z;
  alarmSerial : string;
  alarm_userId : option Z;        (* null while no user is assigned *)
  alarm_location : string
}.

Record subscription := {
  sub_userId : Z;
  sub_endpoint : string;
  sub_expirationTime : option Z;
  sub_p256dh : string;
  sub_auth : string
}.

Record user := {
  user_id : Z;
  user_username : string
}.

(** The object [sub] handed to [push.sendNotification]. *)
Record pushSubscription := {
  endpoint : string;
  expirationTime : option Z;
  keys_p256dh : string;
  keys_auth : string
}.

Definition toPushSubscription (s : subscription) : pushSubscription :=
  {| endpoint := sub_endpoint s;
     expirationTime := sub_expirationTime s;
     keys_p256dh := sub_p256dh s;
     keys_auth := sub_auth s |}.

Record action := {
  action_action : string;
  action_title : string;
  action_type : string
}.

Record notification := {
  title : string;
  message : string;
  actions : list action
}.

(** One call of [push.sendNotification] and whether it resolved. *)
Record dispatch := {
  d_sub : pushSubscription;
  d_payload : notification;
  d_ok : bool
}.

(** The bodies the three handlers send. *)
Inductive body :=
| Counts (totalSubscriptions successfulNotifications : nat)
         (errors : list string)
| Confirmation (confirmed : JS.value) (location : string)
               (totalSubscriptions successfulNotifications : nat)
               (errors : list string)
| Error (error : string)                (* {"error": ...} *)
| Errors (errors : string)              (* {"errors": ...} *)
| Text (text : string).

Definition response : Type := Z * body.

(** What a handler finds outside the process: the Sequelize queries
    ([None] when the query rejects, or when [findOne] finds no row), the
    outcome of the n-th call of [push.sendNotification], and the offset
    of the host's time zone at an instant, in milliseconds. *)
Record world := {
  alarm_findAll : string -> option (list alarm);
  subscription_findAll_where : Z -> option (list subscription);
  subscription_findAll : option (list subscription);
  user_findOne : string -> option user;
  sendNotification : nat -> pushSubscription -> notification -> bool;
  localTZA : Z -> Z
}.

(** ** The process state and the handler monad *)

(** The array [[res, alarm.userId, dbSubscriptions.length,
    successfulNotifications, errors, alarm.location]] stored in
    [alarmMap].  A response object is named by the number of its
    request. *)
Record entry := {
  e_res : nat;                    (* value[0] *)
  e_userId : Z;                   (* value[1] *)
  e_total : nat;                  (* value[2] *)
  e_successful : nat;             (* value[3] *)
  e_errors : list string;         (* value[4] *)
  e_location : string             (* value[5] *)
}.

(** [alarmMap] is a [Map]: keys are unique and iteration follows
    insertion order.  [sent] lists the responses written so far and
    [pushed] the calls made to the push service. *)
Record state := {
  alarmMap : list (string * entry);
  sent : list (nat * response);
  pushed : list dispatch
}.

Definition with_alarmMap (m : list (string * entry)) (st : state) : state :=
  {| alarmMap := m; sent := sent st; pushed := pushed st |}.

Definition with_pushed (p : list dispatch) (st : state) : state :=
  {| alarmMap := alarmMap st; sent := sent st; pushed := p |}.

Module Map.

Definition get (key : string) (m : list (string * entry)) : option entry :=
  option_map snd (find (fun p => (fst p =? key)%string) m).

(** [set] on a key already present replaces the value in place. *)
Fixpoint set (key : string) (v : entry) (m : list (string * entry))
  : list (string * entry) :=
  match m with
  | [] => [(key, v)]
  | (k, x) :: m' =>
      if (k =? key)%string then (k, v) :: m' else (k, x) :: set key v m'
  end.

Definition delete (key : string) (m : list (string * entry))
  : list (string * entry) :=
  filter (fun p => negb (fst p =? key)%string) m.

End Map.

(** A handler runs on the state and either completes or throws; what it
    wrote before throwing stays written. *)
Inductive completion (A : Type) :=
| Normal (a : A)
| Throw.
Arguments Normal {A} a.
Arguments Throw {A}.

Definition handler (A : Type) : Type := state -> completion A * state.

Definition ret {A} (a : A) : handler A := fun st => (Normal a, st).

Definition bind {A B} (c : handler A) (k : A -> handler B) : handler B :=
  fun st =>
    match c st with
    | (Normal a, st') => k a st'
    | (Throw, st') => (Throw, st')
    end.

Definition try_catch {A} (c : handler A) (h : handler A) : handler A :=
  fun st =>
    match c st with
    | (Normal a, st') => (Normal a, st')
    | (Throw, st') => h st'
    end.

Declare Scope handler_scope.
Delimit Scope handler_scope with handler.
Notation "x <- c ;; k" := (bind c (fun x => k))
  (at level 61, c at next level, right associativity) : handler_scope.
Notation "c ;; k" := (bind c (fun _ => k))
  (at level 61, right associativity) : handler_scope.
Local Open Scope handler_scope.

(** A rejected query. *)
Definition query {A} (r : option A) : handler A :=
  fun st =>
    match r with
    | Some a => (Normal a, st)
    | None => (Throw, st)
    end.

Definition headersSent (res : nat) (st : state) : bool :=
  existsb (fun p => (fst p =? res)%nat) (sent st).

(** [res.status(code).json(body)] and [res.status(code).send(text)]:
    Express throws when the response was already written. *)
Definition write (res : nat) (code : Z) (b : body) (st : state) : state :=
  {| alarmMap := alarmMap st;
     sent := sent st ++ [(res, (code, b))];
     pushed := pushed st |}.

Definition res_send (res : nat) (code : Z) (b : body) : handler unit :=
  fun st =>
    if headersSent res st then (Throw, st)
    else (Normal tt, write res code b st).

(** [await push.sendNotification(sub, JSON.stringify(notification))]. *)
Definition push_sendNotification (w : world) (sub : pushSubscription)
  (payload : notification) : handler unit :=
  fun st =>
    let ok := sendNotification w (length (pushed st)) sub payload in
    ((if ok then Normal tt else Throw),
     with_pushed
       (pushed st ++ [{| d_sub := sub; d_payload := payload; d_ok := ok |}])
       st).

Definition alarmMap_get (key : string) : handler (option entry) :=
  fun st => (Normal (Map.get key (alarmMap st)), st).

Definition alarmMap_set (key : string) (v : entry) : handler unit :=
  fun st => (Normal tt, with_alarmMap (Map.set key v (alarmMap st)) st).

Definition alarmMap_delete (key : string) : handler unit :=
  fun st => (Normal tt, with_alarmMap (Map.delete key (alarmMap st)) st).

(** ** The fan-out loop

    The loop of [notifyAllUsers] and the loop of [confirmAlarm] are the
    same text but for the notification they send. *)
Definition dispatchError : string := "Error occurred when sending notification".

Fixpoint fanOut (w : world) (payload : notification)
  (dbSubscriptions : list subscription)
  (successfulNotifications : nat) (errors : list string)
  : handler (nat * list string) :=
  match dbSubscriptions with
  | [] => ret (successfulNotifications, errors)
  | subscription :: rest =>
      let sub := toPushSubscription subscription in
      delivered <- try_catch
                     (push_sendNotification w sub payload;; ret true)
                     (ret false);;
      if delivered
      then fanOut w payload rest (S successfulNotifications) errors
      else fanOut w payload rest successfulNotifications
                  (errors ++ [dispatchError])
  end.

(** ** notifyAllUsers *)
Definition notifyAllUsers (w : world) (payload : notification) (res : nat)
  : handler unit :=
  dbSubscriptions <- query (subscription_findAll w);;
  match dbSubscriptions with
  | [] => res_send res 200 (Counts 0 0 [])
  | _ =>
      r <- fanOut w payload dbSubscriptions 0 [];;
      res_send res 200 (Counts (length dbSubscriptions) (fst r) (snd r))
  end.

(** ** confirmAlarm *)

(** [delay(seconds)]: the milliseconds handed to [setTimeout]. *)
Definition delay (seconds : Z) : Z := seconds * 1000.

(** What the [try] block of [confirmAlarm] leaves: a response already
    sent, or the alarm, its truthy [userId] and the subscriptions. *)
Inductive lookup :=
| Answered
| Found (alarm : alarm) (userId : Z) (dbSubscriptions : list subscription).

Definition confirmAlarm_lookup (w : world) (alarmId : string) (res : nat)
  : handler lookup :=
  try_catch
    (alarms <- query (alarm_findAll w alarmId);;
     match alarms with
     | [] =>
         res_send res 404 (Error "Couldn't find alarm with provided alarm ID");;
         ret Answered
     | alarm :: _ =>
         match alarm_userId alarm with
         | Some userId =>
             if userId =? 0
             then res_send res 404 (Error "Alarm doesn't have a user assigned");;
                  ret Answered
             else
               dbSubscriptions <- query (subscription_findAll_where w userId);;
               match dbSubscriptions with
               | [] =>
                   res_send res 404
                     (Error "Couldn't find user in subscriptions");;
                   ret Answered
               | _ => ret (Found alarm userId dbSubscriptions)
               end
         | None =>
             res_send res 404 (Error "Alarm doesn't have a user assigned");;
             ret Answered
         end
     end)
    (res_send res 500 (Error "Unknown error occurred");; ret Answered).

Definition confirmPrompt (w : world) (alarm : alarm) (timeStamp : Z)
  : notification :=
  {| title := "Alarm Confirmation";
     message := "Alarm was triggered at " ++ alarm_location alarm ++ " at "
                ++ unixToDate (localTZA w) timeStamp
                ++ ". Please confirm the existence of a fire.";
     actions :=
       [ {| action_action := "confirm"; action_title := "Confirm Alarm";
            action_type := "button" |};
         {| action_action := "deny"; action_title := "False Alarm";
            action_type := "button" |} ] |}.

(** The key of an entry.  [timeStamp] is the number of the [timestamp]
    parameter, which the API documents as an integer. *)
Definition correlationKey (alarm : alarm) (timeStamp : Z) : string :=
  JS.Number_toString (alarm_id alarm) ++ "-" ++ JS.Number_toString timeStamp.

(** The closure suspended at [await delay(15)]: the timer's delay and
    the locals the rest of the function reads. *)
Record suspended := {
  k_ms : Z;
  k_key : string;
  k_res : nat;
  k_location : string;
  k_total : nat;
  k_successful : nat;
  k_errors : list string
}.

(** [confirmAlarm] up to [await delay(15)]. *)
Definition confirmAlarm (w : world) (alarmId : string) (timeStamp : Z)
  (res : nat) : handler (option suspended) :=
  found <- confirmAlarm_lookup w alarmId res;;
  match found with
  | Answered => ret None
  | Found alarm userId dbSubscriptions =>
      r <- fanOut w (confirmPrompt w alarm timeStamp) dbSubscriptions 0 [];;
      let key := correlationKey alarm timeStamp in
      alarmMap_set key
        {| e_res := res; e_userId := userId;
           e_total := length dbSubscriptions;
           e_successful := fst r; e_errors := snd r;
           e_location := alarm_location alarm |};;
      ret (Some {| k_ms := delay 15; k_key := key; k_res := res;
                   k_location := alarm_location alarm;
                   k_total := length dbSubscriptions;
                   k_successful := fst r; k_errors := snd r |})
  end.

(** [confirmAlarm] after the delay. *)
Definition confirmAlarm_wake (k : suspended) : handler unit :=
  v <- alarmMap_get (k_key k);;
  match v with
  | Some _ =>
      alarmMap_delete (k_key k);;
      res_send (k_res k) 200
        (Confirmation (JS.Str "null") (k_location k) (k_total k)
                      (k_successful k) (k_errors k))
  | None => ret tt
  end.

(** ** logResponse *)

(** The [for ... of alarmMap] loop.  Only the entry under the cursor is
    deleted, so the loop visits the entries the map held when it
    started, in order. *)
Fixpoint logResponse_loop (userId : Z) (confirmed : JS.value)
  (entries : list (string * entry)) : handler unit :=
  match entries with
  | [] => ret tt
  | (key, value) :: rest =>
      if e_userId value =? userId
      then
        res_send (e_res value) 200
          (Confirmation confirmed (e_location value) (e_total value)
                        (e_successful value) (e_errors value));;
        alarmMap_delete key;;
        logResponse_loop userId confirmed rest
      else logResponse_loop userId confirmed rest
  end.

Definition logResponse (w : world) (username : string) (confirmed : JS.value)
  (res : nat) : handler unit :=
  db_user <- query (user_findOne w username);;
  let userId := user_id db_user in
  try_catch
    (fun st => logResponse_loop userId confirmed (alarmMap st) st)
    (res_send res 500 (Errors "Error occurred confirming alarm."));;
  res_send res 200 (Text "Response received").

(** ** The server: requests and timers *)

Record node := {
  globals : state;
  timers : list suspended;        (* the closures waiting in [delay] *)
  nextRes : nat                   (* the number of the next request *)
}.

Inductive event :=
| GetConfirm (w : world) (alarmId : string) (timestamp : Z)
| GetResponse (w : world) (username : string) (confirmed : JS.value)
| PostNotify (w : world) (payload : notification)
| Timeout (i : nat).

Definition remove_nth {A} (i : nat) (l : list A) : list A :=
  firstn i l ++ skipn (S i) l.

(** A request gets a fresh response object; a timer fires at any moment
    after it was set (time itself is not modelled). *)
Definition step (ev : event) (n : node) : option node :=
  match ev with
  | GetConfirm w alarmId timestamp =>
      let '(r, st) := confirmAlarm w alarmId timestamp (nextRes n) (globals n) in
      Some {| globals := st;
              timers := match r with
                        | Normal (Some k) => timers n ++ [k]
                        | _ => timers n
                        end;
              nextRes := S (nextRes n) |}
  | GetResponse w username confirmed =>
      let '(_, st) := logResponse w username confirmed (nextRes n) (globals n) in
      Some {| globals := st; timers := timers n; nextRes := S (nextRes n) |}
  | PostNotify w payload =>
      let '(_, st) := notifyAllUsers w payload (nextRes n) (globals n) in
      Some {| globals := st; timers := timers n; nextRes := S (nextRes n) |}
  | Timeout i =>
      match nth_error (timers n) i with
      | Some k =>
          let '(_, st) := confirmAlarm_wake k (globals n) in
          Some {| globals := st;
                  timers := remove_nth i (timers n);
                  nextRes := nextRes n |}
      | None => None
      end
  end.

Definition boot : node :=
  {| globals := {| alarmMap := []; sent := []; pushed := [] |};
     timers := [];
     nextRes := 0%nat |}.

Fixpoint run (evs : list event) (n : node) : option node :=
  match evs with
  | [] => Some n
  | ev :: evs' =>
      match step ev n with
      | Some n' => run evs' n'
      | None => None
      end
  end.

Inductive reachable : node -> Prop :=
| reachable_boot : reachable boot
| reachable_step ev n n' :
    reachable n -> step ev n = Some n' -> reachable n'.

(** ** The service worker of the PWA

    The client that shows the pushed notification and calls
    [/response]. *)
Module ServiceWorker.

(** [event.data.json()]: any field may be missing. *)
Record pushData := {
  data_title : option string;
  data_message : option string;
  data_actions : option (list action);
  data_metadata : option (list (string * JS.value))
}.

(** [event.data?.json() ?? {}] when there is no data. *)
Definition noData : pushData :=
  {| data_title := None; data_message := None; data_actions := None;
     data_metadata := None |}.

(** The second argument of [showNotification]. *)
Record options := {
  opt_body : string;
  opt_vibrate : list Z;
  opt_data : list (string * JS.value);
  opt_actions : list action
}.

(** [s || fallback] on a string that may be missing: the empty string is
    falsy. *)
Definition orElse (s : option string) (fallback : string) : string :=
  match s with
  | Some EmptyString | None => fallback
  | Some s => s
  end.

(** The listener of [push]: [None] when it returns without showing a
    notification, otherwise the title and the options shown. *)
Definition onPush (hasNotification : bool) (permission : string)
  (eventData : option pushData) : option (string * options) :=
  if negb (hasNotification && (permission =? "granted")%string) then None
  else
    let data := match eventData with Some d => d | None => noData end in
    let title := orElse (data_title data) "Default Title" in
    let message := orElse (data_message data) "Default message" in
    let actions := match data_actions data with Some a => a | None => [] end in
    let metadata := match data_metadata data with Some m => m | None => [] end in
    Some (title,
          {| opt_body := message; opt_vibrate := [300; 200; 300];
             opt_data := metadata; opt_actions := actions |}).

(** The value of [response] after the [switch] of [notificationclick]:
    [None] for [null], also when the listener returned before it. *)
Definition clickResponse (action : string) : option bool :=
  if (action =? "")%string then None
  else if (action =? "confirm")%string then Some true
  else if (action =? "deny")%string then Some false
  else None.

(** The listener of [notificationclick]: the URL it fetches, if any. *)
Definition notificationclick (action : string) : option string :=
  match clickResponse action with
  | Some response =>
      Some ("http://141.215.80.233:4000/response?confirmed="
            ++ (if response then "true" else "false") ++ "&userId=1")
  | None => None
  end.

(** What [event.data.json()] gives for the payload the server
    stringified. *)
Definition received (n : notification) : pushData :=
  {| data_title := Some (title n); data_message := Some (message n);
     data_actions := Some (actions n); data_metadata := None |}.

End ServiceWorker.

(** ** Notions used to state the properties *)

(** The first padding branch of [unixToDate], as a function. *)
Definition padded (m : string) : string :=
  if (String.length m =? 1)%nat then "0" ++ m else m.

(** The calls a fan-out over [dbSubscriptions] makes when [n] calls were
    made before it: one per subscription, in order. *)
Fixpoint dispatches (w : world) (payload : notification)
  (dbSubscriptions : list subscription) (n : nat) : list dispatch :=
  match dbSubscriptions with
  | [] => []
  | subscription :: rest =>
      let sub := toPushSubscription subscription in
      {| d_sub := sub; d_payload := payload;
         d_ok := sendNotification w n sub payload |}
        :: dispatches w payload rest (S n)
  end.

Definition failures (t : list dispatch) : nat :=
  length (filter (fun d => negb (d_ok d)) t).

Definition successes (t : list dispatch) : nat :=
  length (filter d_ok t).

(** The entry [confirmAlarm] stores and the closure it suspends, given
    the calls [t] its fan-out made. *)
Definition pendingEntry (res : nat) (alarm : alarm) (userId : Z)
  (dbSubscriptions : list subscription) (t : list dispatch) : entry :=
  {| e_res := res; e_userId := userId;
     e_total := List.length dbSubscriptions;
     e_successful := List.length dbSubscriptions - failures t;
     e_errors := repeat dispatchError (failures t);
     e_location := alarm_location alarm |}.

Definition suspension (res : nat) (alarm : alarm) (timeStamp : Z)
  (dbSubscriptions : list subscription) (t : list dispatch) : suspended :=
  {| k_ms := delay 15; k_key := correlationKey alarm timeStamp; k_res := res;
     k_location := alarm_location alarm;
     k_total := List.length dbSubscriptions;
     k_successful := List.length dbSubscriptions - failures t;
     k_errors := repeat dispatchError (failures t) |}.

(** The response [logResponse] writes for an entry. *)
Definition reply (confirmed : JS.value) (p : string * entry)
  : nat * response :=
  (e_res (snd p),
   (200, Confirmation confirmed (e_location (snd p)) (e_total (snd p))
                      (e_successful (snd p)) (e_errors (snd p)))).

Definition ownedBy (userId : Z) (p : string * entry) : bool :=
  e_userId (snd p) =? userId.

(** The body [confirmAlarm] sends when it wakes to its entry. *)
Definition timeoutBody (k : suspended) : body :=
  Confirmation (JS.Str "null") (k_location k) (k_total k) (k_successful k)
               (k_errors k).

(** One turn of the loop of [logResponse] on the map. *)
Definition deleteOwned (userId : Z) (m : list (string * entry))
  (p : string * entry) : list (string * entry) :=
  if ownedBy userId p then Map.delete (fst p) m else m.

(** The state [logResponse] leaves when nothing throws. *)
Definition answered (userId : Z) (confirmed : JS.value) (res : nat)
  (st : state) : state :=
  {| alarmMap := filter (fun p => negb (ownedBy userId p)) (alarmMap st);
     sent := (sent st
              ++ map (reply confirmed) (filter (ownedBy userId) (alarmMap st)))
              ++ [(res, (200, Text "Response received"))];
     pushed := pushed st |}.

(** The store resolves [alarmId] to an alarm with an assigned user who
    has at least one subscription. *)
Definition resolves (w : world) (alarmId : string) (alarm : alarm)
  (userId : Z) (dbSubscriptions : list subscription) : Prop :=
  (exists others, alarm_findAll w alarmId = Some (alarm :: others))
  /\ alarm_userId alarm = Some userId
  /\ userId <> 0
  /\ subscription_findAll_where w userId = Some dbSubscriptions
  /\ dbSubscriptions <> [].

(** The server after [confirmAlarm] found the alarm, fanned out and
    suspended. *)
Definition afterConfirm (w : world) (alarm : alarm) (userId : Z)
  (dbSubscriptions : list subscription) (timestamp : Z) (n : node) : node :=
  let t := dispatches w (confirmPrompt w alarm timestamp) dbSubscriptions
             (List.length (pushed (globals n))) in
  {| globals :=
       with_alarmMap
         (Map.set (correlationKey alarm timestamp)
            (pendingEntry (nextRes n) alarm userId dbSubscriptions t)
            (alarmMap (globals n)))
         (with_pushed (pushed (globals n) ++ t) (globals n));
     timers := timers n
               ++ [suspension (nextRes n) alarm timestamp dbSubscriptions t];
     nextRes := S (nextRes n) |}.

(** The response objects held in the map. *)
Definition sinks (m : list (string * entry)) : list nat :=
  map (fun p => e_res (snd p)) m.

(** A state is well formed when the keys of [alarmMap] are unique, no
    response object is held twice and none of those held was written. *)
Record wf (st : state) : Prop := {
  wf_keys : NoDup (map fst (alarmMap st));
  wf_sinks : NoDup (sinks (alarmMap st));
  wf_unsent : forall p, In p (alarmMap st) ->
                        headersSent (e_res (snd p)) st = false
}.

(** What holds of the server between two steps: the state is well
    formed, every response object in use belongs to a request already
    received, and an entry holding the response object of a suspended
    closure sits under that closure's key. *)
Record invariant (n : node) : Prop := {
  inv_wf : wf (globals n);
  inv_map : forall p, In p (alarmMap (globals n)) ->
                      (e_res (snd p) < nextRes n)%nat;
  inv_sent : forall r, headersSent r (globals n) = true ->
                       (r < nextRes n)%nat;
  inv_timers : forall k, In k (timers n) -> (k_res k < nextRes n)%nat;
  inv_owner : forall p k, In p (alarmMap (globals n)) -> In k (timers n) ->
                          e_res (snd p) = k_res k -> fst p = k_key k
}.

(** The responses written to a response object, oldest first. *)
Definition responsesTo (res : nat) (st : state) : list response :=
  map snd (filter (fun x => (fst x =? res)%nat) (sent st)).

(** A request is abandoned when it was received, got no response, and
    neither the map nor a suspended closure holds its response object. *)
Definition abandoned (res : nat) (n : node) : Prop :=
  (res < nextRes n)%nat
  /\ headersSent res (globals n) = false
  /\ ~ In res (sinks (alarmMap (globals n)))
  /\ ~ In res (map k_res (timers n)).

(** A closure and an entry made by the same run of [confirmAlarm]. *)
Definition twin (k : suspended) (p : string * entry) : Prop :=
  k_key k = fst p
  /\ k_res k = e_res (snd p)
  /\ k_location k = e_location (snd p)
  /\ k_total k = e_total (snd p)
  /\ k_successful k = e_successful (snd p)
  /\ k_errors k = e_errors (snd p)
  /\ k_ms k = 15000.


(** The counts of a body add up: successes and errors make the total,
    and a confirmation has at least one subscription. *)
Definition addsUp (b : body) : Prop :=
  match b with
  | Counts total successful errors =>
      (successful + List.length errors = total)%nat
  | Confirmation _ _ total successful errors =>
      (successful + List.length errors = total)%nat /\ (1 <= total)%nat
  | _ => True
  end.

Definition sound (n : node) : Prop :=
  (forall p, In p (alarmMap (globals n)) ->
             (e_successful (snd p) + List.length (e_errors (snd p))
              = e_total (snd p))%nat
             /\ (1 <= e_total (snd p))%nat)
  /\ (forall k, In k (timers n) ->
                (k_successful k + List.length (k_errors k) = k_total k)%nat
                /\ (1 <= k_total k)%nat)
  /\ (forall x, In x (sent (globals n)) -> addsUp (snd (snd x))).


(** An event spares the entry stored under [key] for user [userId]: it
    is not a [confirmAlarm] that stores under [key], not a response of
    that user, and not the wake of a closure suspended under [key]. *)
Definition spares (key : string) (userId : Z) (ev : event) (n : node)
  : Prop :=
  match ev with
  | GetConfirm w alarmId timestamp =>
      forall alarm u dbSubscriptions,
        resolves w alarmId alarm u dbSubscriptions ->
        correlationKey alarm timestamp <> key
  | GetResponse w username _ =>
      forall db_user,
        user_findOne w username = Some db_user -> user_id db_user <> userId
  | PostNotify _ _ => True
  | Timeout i =>
      forall k, nth_error (timers n) i = Some k -> k_key k <> key
  end.

(** A run all of whose events spare the entry. *)
Fixpoint sparing (key : string) (userId : Z) (evs : list event) (n : node)
  : Prop :=
  match evs with
  | [] => True
  | ev :: evs' =>
      spares key userId ev n
      /\ forall n', step ev n = Some n' -> sparing key userId evs' n'
  end.

(** Decimal digits, to read the keys of [alarmMap] back. *)
Definition isDigit (c : ascii) : bool :=
  match c with
  | "0" | "1" | "2" | "3" | "4" | "5" | "6" | "7" | "8" | "9" => true
  | _ => false
  end%char.

Fixpoint digits (s : string) : bool :=
  match s with
  | EmptyString => true
  | String c r => isDigit c && digits r
  end.

(** ** A sample store: the alarm and the user of [insertTestData], with
    two subscribed devices; the second call to the push service fails. *)
Module Demo.

Definition blaze : user := {| user_id := 1; user_username := "Blaze" |}.

Definition alarm1 : alarm :=
  {| alarm_id := 1; alarmSerial := "1"; alarm_userId := Some 1;
     alarm_location := "Unknown" |}.

Definition device (name : string) : subscription :=
  {| sub_userId := 1; sub_endpoint := "https://push.example/" ++ name;
     sub_expirationTime := None; sub_p256dh := "p256dh-" ++ name;
     sub_auth := "auth-" ++ name |}.

Definition store : world :=
  {| alarm_findAll := fun serial =>
       Some (if (serial =? "1")%string then [alarm1] else []);
     subscription_findAll_where := fun userId =>
       Some (if userId =? 1 then [device "phone"; device "laptop"] else []);
     subscription_findAll := Some [device "phone"; device "laptop"];
     user_findOne := fun username =>
       if (username =? "Blaze")%string then Some blaze else None;
     sendNotification := fun n _ _ => negb (n =? 1)%nat;
     localTZA := fun _ => 0 |}.

Definition alert : notification :=
  {| title := "Fire Detected!"; message := "Fire confirmed in room 104.";
     actions := [] |}.

(** The server after [GET /confirm?alarmId=1&timestamp=1700000000] on a
    fresh process. *)
Definition waiting : node :=
  match step (GetConfirm store "1" 1700000000) boot with
  | Some n => n
  | None => boot
  end.


(** The server after that request timed out. *)
Definition timedOut : node :=
  match run [GetConfirm store "1" 1700000000; Timeout 0] boot with
  | Some n => n
  | None => boot
  end.

(** The server after a [POST /notify] that came while the request
    waited. *)
Definition notified : node :=
  match step (PostNotify store alert) waiting with
  | Some n => n
  | None => waiting
  end.


(** The server after the controller asked twice, for the same alarm and
    timestamp, and the user then answered. *)
Definition askedTwice : node :=
  match run [GetConfirm store "1" 1700000000;
             GetConfirm store "1" 1700000000;
             GetResponse store "Blaze" (JS.Bool true)] boot with
  | Some n => n
  | None => boot
  end.

End Demo.

(** * Properties *)

(** ** Strings and time *)

Lemma substring_whole (s : string) :
  String.substring 0 (String.length s) s = s.
Proof.
  induction s as [|c s IH]; simpl; [reflexivity|].
  now rewrite IH.
Qed.

Lemma JS_substring_negative (start : Z) (s : string) :
  start <= 0 -> JS.substring start s = s.
Proof.
  intros Hs. unfold JS.substring.
  replace (Z.min (Z.max start 0) (Z.of_nat (String.length s))) with 0 by lia.
  simpl. rewrite Nat.sub_0_r. apply substring_whole.
Qed.

Lemma below_cases (P : nat -> Prop) (b : nat) :
  (forall n, (n < b)%nat -> P n) ->
  forall z, 0 <= z < Z.of_nat b -> P (Z.to_nat z).
Proof. intros H z Hz. apply H. lia. Qed.

Lemma one_digit (s : Z) :
  0 <= s < 10 -> String.length (JS.Number_toString s) = 1%nat.
Proof.
  intros Hs. rewrite <- (Z2Nat.id s) by lia.
  revert s Hs.
  apply (below_cases
           (fun n => String.length (JS.Number_toString (Z.of_nat n)) = 1%nat)
           10).
  intros n Hn.
  do 10 (destruct n as [|n]; [reflexivity|]). lia.
Qed.

Lemma two_digits (m : Z) :
  0 <= m < 60 -> String.length (padded (JS.Number_toString m)) = 2%nat.
Proof.
  intros Hm. rewrite <- (Z2Nat.id m) by lia.
  revert m Hm.
  apply (below_cases
           (fun n =>
              String.length (padded (JS.Number_toString (Z.of_nat n))) = 2%nat)
           60).
  intros n Hn.
  do 60 (destruct n as [|n]; [reflexivity|]). lia.
Qed.

Lemma getSeconds_valid tz ms s :
  JS.getSeconds tz ms = JS.Num s ->
  JS.validTime ms = true /\ s = (JS.localTime tz ms / 1000) mod 60.
Proof.
  unfold JS.getSeconds. destruct (JS.validTime ms); [|discriminate].
  intros H. injection H as <-. auto.
Qed.

Lemma padded_cases (m : Z) :
  0 <= m < 60 ->
  padded (JS.Number_toString m)
  = if m <? 10 then ("0" ++ JS.Number_toString m)%string
    else JS.Number_toString m.
Proof.
  intros Hm. rewrite <- (Z2Nat.id m) by lia.
  revert m Hm.
  apply (below_cases
           (fun n =>
              padded (JS.Number_toString (Z.of_nat n))
              = if Z.of_nat n <? 10
                then ("0" ++ JS.Number_toString (Z.of_nat n))%string
                else JS.Number_toString (Z.of_nat n))
           60).
  intros n Hn.
  do 60 (destruct n as [|n]; [reflexivity|]). lia.
Qed.

Lemma length_append (a b : string) :
  String.length (a ++ b) = (String.length a + String.length b)%nat.
Proof. induction a as [|c a IH]; simpl; [reflexivity | now rewrite IH]. Qed.

(** C10: for a valid time whose local seconds are a single digit,
    [unixToDate] gives the local hour and the two-digit minutes of that
    time ([tz] is the offset of the host's zone at an instant, in
    milliseconds), and as its seconds field "0" followed by those
    two-digit minutes, not the seconds: the field has three characters,
    and the result is not the time with its seconds on two digits. *)
Theorem unixToDate_seconds_slip (tz : Z -> Z) (unix_timestamp : Z) :
  JS.validTime (unix_timestamp * 1000) = true ->
  let t := unix_timestamp * 1000 + tz (unix_timestamp * 1000) in
  let h := (t / 3600000) mod 24 in
  let m := (t / 60000) mod 60 in
  let s := (t / 1000) mod 60 in
  let mm := if m <? 10 then "0" ++ JS.Number_toString m
            else JS.Number_toString m in
  s < 10 ->
  unixToDate_fields tz unix_timestamp = (JS.Num h, mm, "0" ++ mm)
  /\ unixToDate tz unix_timestamp
     = JS.Number_toString h ++ ":" ++ mm ++ ":" ++ "0" ++ mm
  /\ String.length ("0" ++ mm) = 3%nat
  /\ "0" ++ mm <> "0" ++ JS.Number_toString s
  /\ unixToDate tz unix_timestamp
     <> JS.Number_toString h ++ ":" ++ mm ++ ":" ++ "0" ++ JS.Number_toString s.
Proof.
  intros Hvalid t h m s mm Hlt.
  assert (Hsr : 0 <= s < 10)
    by (pose proof (Z.mod_pos_bound (t / 1000) 60); lia).
  assert (Hmr : 0 <= m < 60) by (apply Z.mod_pos_bound; lia).
  assert (Hmm : mm = padded (JS.Number_toString m))
    by (unfold mm; now rewrite padded_cases).
  assert (Hlen : String.length mm = 2%nat)
    by (rewrite Hmm; now apply two_digits).
  assert (Hfields : unixToDate_fields tz unix_timestamp
                    = (JS.Num h, mm, "0" ++ mm)).
  { unfold unixToDate_fields, JS.getHours, JS.getMinutes, JS.getSeconds,
      JS.localTime.
    rewrite Hvalid. cbn [JS.toString]. fold t. fold h. fold m. fold s.
    rewrite (one_digit s Hsr). cbn [Nat.eqb].
    fold (padded (JS.Number_toString m)). now rewrite <- Hmm. }
  assert (Hdate : unixToDate tz unix_timestamp
                  = JS.Number_toString h ++ ":" ++ mm ++ ":" ++ "0" ++ mm).
  { unfold unixToDate. rewrite Hfields. cbn [JS.toString].
    now rewrite !JS_substring_negative by lia. }
  split; [exact Hfields|]. split; [exact Hdate|].
  split; [simpl; now rewrite Hlen|].
  split.
  - intros Heq. apply (f_equal String.length) in Heq. simpl in Heq.
    rewrite Hlen, (one_digit s Hsr) in Heq. discriminate.
  - rewrite Hdate. intros Heq. apply (f_equal String.length) in Heq.
    rewrite !length_append in Heq. simpl in Heq.
    rewrite Hlen, (one_digit s Hsr) in Heq. lia.
Qed.

(** 2023-11-14 22:13:05 and 22:13:20 UTC on a host in UTC, the first on
    a host five hours behind, and the epoch on a host 44 minutes and 30
    seconds behind. *)
Example unixToDate_05 : unixToDate (fun _ => 0) 1699999985 = "22:13:013".
Proof. reflexivity. Qed.

Example unixToDate_20 : unixToDate (fun _ => 0) 1700000000 = "22:13:20".
Proof. reflexivity. Qed.

Example unixToDate_05_west :
  unixToDate (fun _ => -18000000) 1699999985 = "17:13:013".
Proof. reflexivity. Qed.

Example unixToDate_half_minute :
  unixToDate (fun _ => -2670000) 0 = "23:15:30".
Proof. reflexivity. Qed.

Lemma unixToDate_seconds_slip_witness :
  unixToDate_fields (fun _ => 0) 1699999985 = (JS.Num 22, "13", "013")
  /\ unixToDate (fun _ => 0) 1699999985 = "22:13:013"
  /\ String.length "013" = 3%nat
  /\ "013" <> "05"
  /\ unixToDate (fun _ => 0) 1699999985 <> "22:13:05".
Proof.
  apply (unixToDate_seconds_slip (fun _ => 0) 1699999985);
    [reflexivity | reflexivity].
Defined.

(** ** The fan-out *)

Local Open Scope list_scope.

Lemma state_eta (st : state) :
  {| alarmMap := alarmMap st; sent := sent st; pushed := pushed st |} = st.
Proof. now destruct st. Qed.

Lemma fanOut_spec w payload dbSubscriptions :
  forall successful errors st,
    let t := dispatches w payload dbSubscriptions (length (pushed st)) in
    fanOut w payload dbSubscriptions successful errors st
    = (Normal ((successful + successes t)%nat,
               (errors ++ repeat dispatchError (failures t))%list),
       with_pushed (pushed st ++ t) st).
Proof.
  induction dbSubscriptions as [|s rest IH]; intros successful errors st; simpl.
  - unfold ret, with_pushed, successes, failures; simpl.
    now rewrite Nat.add_0_r, !app_nil_r, state_eta.
  - unfold bind at 1, try_catch, bind at 1, push_sendNotification. simpl.
    destruct (sendNotification _ _ _ _) eqn:Hok; unfold ret; cbv zeta in IH;
      rewrite IH; unfold with_pushed, successes, failures; simpl;
      rewrite length_app, Nat.add_1_r, <- !app_assoc; simpl.
    + now rewrite Nat.add_succ_r.
    + reflexivity.
Qed.

Lemma dispatches_subs w payload dbSubscriptions :
  forall n,
    map d_sub (dispatches w payload dbSubscriptions n)
    = map toPushSubscription dbSubscriptions.
Proof.
  induction dbSubscriptions as [|s rest IH]; intros n; simpl;
    [reflexivity | now rewrite IH].
Qed.

Lemma successes_failures (t : list dispatch) :
  (successes t + failures t = length t)%nat.
Proof.
  unfold successes, failures.
  induction t as [|d t IH]; simpl; [reflexivity|].
  destruct (d_ok d); simpl; lia.
Qed.

Lemma dispatches_length w payload dbSubscriptions n :
  length (dispatches w payload dbSubscriptions n) = length dbSubscriptions.
Proof.
  rewrite <- (length_map d_sub), dispatches_subs. apply length_map.
Qed.

Lemma fanOut_counts w payload dbSubscriptions st :
  let t := dispatches w payload dbSubscriptions (List.length (pushed st)) in
  fanOut w payload dbSubscriptions 0 [] st
  = (Normal ((List.length dbSubscriptions - failures t)%nat,
             repeat dispatchError (failures t)),
     with_pushed (pushed st ++ t) st).
Proof.
  intros t. pose proof (fanOut_spec w payload dbSubscriptions 0 [] st) as H.
  cbv zeta in H. fold t in H. rewrite H. simpl.
  pose proof (successes_failures t) as Hsf.
  unfold t in Hsf at 3. rewrite dispatches_length in Hsf.
  replace (List.length dbSubscriptions - failures t)%nat with (successes t) by lia.
  reflexivity.
Qed.

Lemma notifyAllUsers_spec w payload res st dbSubscriptions :
  subscription_findAll w = Some dbSubscriptions ->
  headersSent res st = false ->
  let t := dispatches w payload dbSubscriptions (List.length (pushed st)) in
  notifyAllUsers w payload res st
  = (Normal tt,
     write res 200
       (Counts (List.length dbSubscriptions)
               (List.length dbSubscriptions - failures t)
               (repeat dispatchError (failures t)))
       (with_pushed (pushed st ++ t) st)).
Proof.
  intros Hq Hfresh t. unfold notifyAllUsers, bind, query. rewrite Hq.
  destruct dbSubscriptions as [|s rest].
  - unfold res_send. rewrite Hfresh. subst t. simpl.
    unfold with_pushed. now rewrite app_nil_r, state_eta.
  - pose proof (fanOut_counts w payload (s :: rest) st) as H.
    cbv zeta in H. fold t in H. rewrite H.
    unfold res_send, headersSent, with_pushed. simpl.
    unfold headersSent in Hfresh. now rewrite Hfresh.
Qed.

Lemma dispatches_nth w payload dbSubscriptions :
  forall n i subscription,
    nth_error dbSubscriptions i = Some subscription ->
    nth_error (dispatches w payload dbSubscriptions n) i
    = Some {| d_sub := toPushSubscription subscription;
              d_payload := payload;
              d_ok := sendNotification w (n + i)
                        (toPushSubscription subscription) payload |}.
Proof.
  induction dbSubscriptions as [|s rest IH]; intros n i subscription Hnth.
  - destruct i; discriminate.
  - destruct i as [|i]; simpl in *.
    + injection Hnth as <-. now rewrite Nat.add_0_r.
    + rewrite (IH (S n) i subscription Hnth). now rewrite Nat.add_succ_r.
Qed.

(** C6: the fan-out over an empty list makes no call and counts nothing.
    Over N subscriptions it makes exactly N calls to the push service,
    the i-th for the i-th subscription with the payload, whatever the
    earlier calls did; each call is logged with the outcome the push
    service gave, and when K of them fail it counts N - K successes and
    lists K errors.  [notifyAllUsers] answers 200 with those counts, for
    the empty list without a call. *)
Theorem fanOut_aggregation (w : world) (payload : notification) :
  (forall st, fanOut w payload [] 0 [] st = (Normal (0%nat, []), st))
  /\ (forall dbSubscriptions st,
        exists (t : list dispatch) (errors : list string),
          fanOut w payload dbSubscriptions 0 [] st
          = (Normal ((List.length dbSubscriptions - failures t)%nat, errors),
             with_pushed (pushed st ++ t) st)
          /\ List.length t = List.length dbSubscriptions
          /\ (forall i subscription,
                 nth_error dbSubscriptions i = Some subscription ->
                 nth_error t i
                 = Some {| d_sub := toPushSubscription subscription;
                           d_payload := payload;
                           d_ok := sendNotification w
                                     (List.length (pushed st) + i)
                                     (toPushSubscription subscription)
                                     payload |})
          /\ map d_sub t = map toPushSubscription dbSubscriptions
          /\ errors = repeat dispatchError (failures t)
          /\ List.length errors = failures t
          /\ (failures t <= List.length dbSubscriptions)%nat)
  /\ (forall dbSubscriptions res st,
        subscription_findAll w = Some dbSubscriptions ->
        headersSent res st = false ->
        exists (t : list dispatch) (errors : list string),
          notifyAllUsers w payload res st
          = (Normal tt,
             write res 200
               (Counts (List.length dbSubscriptions)
                       (List.length dbSubscriptions - failures t) errors)
               (with_pushed (pushed st ++ t) st))
          /\ List.length t = List.length dbSubscriptions
          /\ (forall i subscription,
                 nth_error dbSubscriptions i = Some subscription ->
                 nth_error t i
                 = Some {| d_sub := toPushSubscription subscription;
                           d_payload := payload;
                           d_ok := sendNotification w
                                     (List.length (pushed st) + i)
                                     (toPushSubscription subscription)
                                     payload |})
          /\ errors = repeat dispatchError (failures t)
          /\ List.length errors = failures t).
Proof.
  split; [reflexivity|]. split.
  - intros subs st.
    exists (dispatches w payload subs (List.length (pushed st))),
           (repeat dispatchError
              (failures (dispatches w payload subs (List.length (pushed st))))).
    split; [apply fanOut_counts|]. split; [apply dispatches_length|].
    split; [intros i s Hs; now apply dispatches_nth|].
    split; [apply dispatches_subs|]. split; [reflexivity|].
    split; [apply repeat_length|].
    pose proof (successes_failures
                  (dispatches w payload subs (List.length (pushed st)))) as H.
    rewrite dispatches_length in H. lia.
  - intros subs res st Hq Hfresh.
    exists (dispatches w payload subs (List.length (pushed st))),
           (repeat dispatchError
              (failures (dispatches w payload subs (List.length (pushed st))))).
    split; [now apply notifyAllUsers_spec|]. split; [apply dispatches_length|].
    split; [intros i s Hs; now apply dispatches_nth|].
    split; [reflexivity | apply repeat_length].
Qed.

Lemma fanOut_aggregation_witness :
  exists (t : list dispatch) (errors : list string),
    notifyAllUsers Demo.store Demo.alert 0 (globals boot)
    = (Normal tt,
       write 0 200 (Counts 2 (2 - failures t) errors)
         (with_pushed (pushed (globals boot) ++ t) (globals boot)))
    /\ List.length t = 2%nat
    /\ (forall i subscription,
           nth_error [Demo.device "phone"; Demo.device "laptop"] i
           = Some subscription ->
           nth_error t i
           = Some {| d_sub := toPushSubscription subscription;
                     d_payload := Demo.alert;
                     d_ok := sendNotification Demo.store
                               (List.length (pushed (globals boot)) + i)
                               (toPushSubscription subscription)
                               Demo.alert |})
    /\ errors = repeat dispatchError (failures t)
    /\ List.length errors = failures t.
Proof.
  exact (proj2 (proj2 (fanOut_aggregation Demo.store Demo.alert))
           [Demo.device "phone"; Demo.device "laptop"] 0%nat (globals boot)
           eq_refl eq_refl).
Defined.

Example notifyAllUsers_demo :
  snd (notifyAllUsers Demo.store Demo.alert 0 (globals boot))
  = {| alarmMap := [];
       sent := [(0%nat, (200, Counts 2 1 [dispatchError]))];
       pushed :=
         [ {| d_sub := toPushSubscription (Demo.device "phone");
              d_payload := Demo.alert; d_ok := true |};
           {| d_sub := toPushSubscription (Demo.device "laptop");
              d_payload := Demo.alert; d_ok := false |} ] |}.
Proof. reflexivity. Qed.

(** ** confirmAlarm up to the delay *)

Lemma confirmAlarm_lookup_found w alarmId res st alarm others userId
      dbSubscriptions :
  alarm_findAll w alarmId = Some (alarm :: others) ->
  alarm_userId alarm = Some userId ->
  userId <> 0 ->
  subscription_findAll_where w userId = Some dbSubscriptions ->
  dbSubscriptions <> [] ->
  confirmAlarm_lookup w alarmId res st
  = (Normal (Found alarm userId dbSubscriptions), st).
Proof.
  intros Ha Hu Hnz Hs Hne.
  unfold confirmAlarm_lookup, try_catch, bind, query.
  rewrite Ha, Hu. apply Z.eqb_neq in Hnz. rewrite Hnz, Hs.
  destruct dbSubscriptions; [contradiction | reflexivity].
Qed.

Lemma confirmAlarm_found w alarmId timeStamp res st alarm others userId
      dbSubscriptions :
  alarm_findAll w alarmId = Some (alarm :: others) ->
  alarm_userId alarm = Some userId ->
  userId <> 0 ->
  subscription_findAll_where w userId = Some dbSubscriptions ->
  dbSubscriptions <> [] ->
  let t := dispatches w (confirmPrompt w alarm timeStamp) dbSubscriptions
             (List.length (pushed st)) in
  confirmAlarm w alarmId timeStamp res st
  = (Normal (Some (suspension res alarm timeStamp dbSubscriptions t)),
     with_alarmMap
       (Map.set (correlationKey alarm timeStamp)
                (pendingEntry res alarm userId dbSubscriptions t)
                (alarmMap st))
       (with_pushed (pushed st ++ t) st)).
Proof.
  intros Ha Hu Hnz Hs Hne t.
  unfold confirmAlarm. unfold bind at 1.
  rewrite (confirmAlarm_lookup_found _ _ _ _ _ _ _ _ Ha Hu Hnz Hs Hne).
  unfold bind at 1.
  pose proof (fanOut_counts w (confirmPrompt w alarm timeStamp)
                dbSubscriptions st) as H.
  cbv zeta in H. fold t in H. rewrite H. reflexivity.
Qed.

(** A path of [confirmAlarm] that ends in a single 404 or 500: [path]
    rewrites with the outcome of the queries. *)
Ltac answered_by Hfresh path :=
  do 2 eexists; split;
  [| unfold confirmAlarm, confirmAlarm_lookup, try_catch, bind, query, res_send;
     path; simpl; rewrite Hfresh; reflexivity ];
  auto.

(** Every way through [confirmAlarm] on a fresh response object: one
    404 or 500 and nothing else, or the fan-out and the new entry. *)
Lemma confirmAlarm_cases w alarmId timeStamp res st :
  headersSent res st = false ->
  (exists code msg,
      (code = 404 \/ code = 500)
      /\ confirmAlarm w alarmId timeStamp res st
         = (Normal None, write res code (Error msg) st))
  \/ (exists alarm userId dbSubscriptions,
         let t := dispatches w (confirmPrompt w alarm timeStamp)
                    dbSubscriptions (List.length (pushed st)) in
         confirmAlarm w alarmId timeStamp res st
         = (Normal (Some (suspension res alarm timeStamp dbSubscriptions t)),
            with_alarmMap
              (Map.set (correlationKey alarm timeStamp)
                       (pendingEntry res alarm userId dbSubscriptions t)
                       (alarmMap st))
              (with_pushed (pushed st ++ t) st))).
Proof.
  intros Hfresh.
  destruct (alarm_findAll w alarmId) as [[|alarm others]|] eqn:Ha.
  1, 3: left; answered_by Hfresh ltac:(rewrite Ha).
  destruct (alarm_userId alarm) as [userId|] eqn:Hu.
  2: left; answered_by Hfresh ltac:(rewrite Ha, Hu).
  destruct (Z.eqb_spec userId 0) as [Hz|Hnz].
  1: left; answered_by Hfresh ltac:(rewrite Ha, Hu; subst userId).
  apply Z.eqb_neq in Hnz.
  destruct (subscription_findAll_where w userId) as [[|s rest]|] eqn:Hs.
  1, 3: left; answered_by Hfresh ltac:(rewrite Ha, Hu, Hnz, Hs).
  apply Z.eqb_neq in Hnz.
  right. exists alarm, userId, (s :: rest).
  eapply confirmAlarm_found; eauto. discriminate.
Qed.

(** C7: when the serial is not in the store, or the alarm found has no
    user, or that user has no subscription, [confirmAlarm] answers 404
    and returns: no call to the push service, no entry in [alarmMap],
    no closure left waiting. *)
Theorem confirmAlarm_not_found (w : world) (alarmId : string) (timeStamp : Z)
  (res : nat) (st : state) :
  headersSent res st = false ->
  alarm_findAll w alarmId = Some []
  \/ (exists alarm others,
         alarm_findAll w alarmId = Some (alarm :: others)
         /\ (alarm_userId alarm = None \/ alarm_userId alarm = Some 0))
  \/ (exists alarm others userId,
         alarm_findAll w alarmId = Some (alarm :: others)
         /\ alarm_userId alarm = Some userId
         /\ subscription_findAll_where w userId = Some []) ->
  exists msg st',
    confirmAlarm w alarmId timeStamp res st = (Normal None, st')
    /\ sent st' = sent st ++ [(res, (404, Error msg))]
    /\ pushed st' = pushed st
    /\ alarmMap st' = alarmMap st.
Proof.
  intros Hfresh H.
  assert (Hgoal : exists msg,
             confirmAlarm w alarmId timeStamp res st
             = (Normal None, write res 404 (Error msg) st)).
  { unfold confirmAlarm, confirmAlarm_lookup, try_catch, bind, query, res_send.
    destruct H as [Ha | [(alarm & others & Ha & Hu) | (alarm & others & u & Ha & Hu & Hs)]];
      rewrite Ha.
    - rewrite Hfresh. eexists; reflexivity.
    - destruct Hu as [Hu | Hu]; rewrite Hu; simpl; rewrite Hfresh;
        eexists; reflexivity.
    - rewrite Hu. destruct (u =? 0).
      + rewrite Hfresh. eexists; reflexivity.
      + rewrite Hs, Hfresh. eexists; reflexivity. }
  destruct Hgoal as [msg Hgoal].
  exists msg, (write res 404 (Error msg) st). auto.
Qed.

Lemma confirmAlarm_not_found_witness :
  exists msg st',
    confirmAlarm Demo.store "7" 1700000000 0 (globals boot) = (Normal None, st')
    /\ sent st' = sent (globals boot) ++ [(0%nat, (404, Error msg))]
    /\ pushed st' = pushed (globals boot)
    /\ alarmMap st' = alarmMap (globals boot).
Proof.
  apply (confirmAlarm_not_found Demo.store "7" 1700000000 0 (globals boot)).
  - reflexivity.
  - left. reflexivity.
Defined.

(** ** The map *)

Lemma find_key_In key (m : list (string * entry)) p :
  find (fun q => (fst q =? key)%string) m = Some p -> In p m /\ fst p = key.
Proof.
  intros H. apply find_some in H. destruct H as [Hin Hk].
  split; [assumption | now apply String.eqb_eq].
Qed.

Lemma Map_get_In key m e : Map.get key m = Some e -> In (key, e) m.
Proof.
  unfold Map.get. destruct (find _ m) as [[k x]|] eqn:Hf; [|discriminate].
  simpl. intros H. injection H as <-.
  apply find_key_In in Hf. destruct Hf as [Hin Hk]. simpl in Hk. now subst.
Qed.

Lemma NoDup_map_inj {A B} (f : A -> B) (l : list A) p q :
  NoDup (map f l) -> In p l -> In q l -> f p = f q -> p = q.
Proof.
  induction l as [|x l IH]; simpl; [contradiction|].
  intros Hnd [Hp|Hp] [Hq|Hq] Hk; inversion Hnd as [|? ? Hx Hl]; subst.
  - reflexivity.
  - exfalso. apply Hx. rewrite Hk. now apply in_map.
  - exfalso. apply Hx. rewrite <- Hk. now apply in_map.
  - now apply IH.
Qed.

Lemma same_key_same_entry (m : list (string * entry)) p q :
  NoDup (map fst m) -> In p m -> In q m -> fst p = fst q -> p = q.
Proof. apply NoDup_map_inj. Qed.

Lemma In_Map_get key m e :
  NoDup (map fst m) -> In (key, e) m -> Map.get key m = Some e.
Proof.
  intros Hnd Hin. unfold Map.get.
  destruct (find _ m) as [p|] eqn:Hf.
  - apply find_key_In in Hf. destruct Hf as [Hp Hk].
    rewrite (same_key_same_entry m p (key, e) Hnd Hp Hin Hk). reflexivity.
  - apply (find_none _ _ Hf) in Hin. simpl in Hin.
    now rewrite String.eqb_refl in Hin.
Qed.

Lemma In_delete key m p :
  In p (Map.delete key m) <-> In p m /\ fst p <> key.
Proof.
  unfold Map.delete. rewrite filter_In, negb_true_iff.
  now rewrite String.eqb_neq.
Qed.

Lemma Map_get_delete key m : Map.get key (Map.delete key m) = None.
Proof.
  unfold Map.get. destruct (find _ _) as [p|] eqn:Hf; [|reflexivity].
  apply find_key_In in Hf. destruct Hf as [Hin Hk].
  apply In_delete in Hin. tauto.
Qed.

Lemma In_set key v m p :
  NoDup (map fst m) ->
  In p (Map.set key v m) -> p = (key, v) \/ (In p m /\ fst p <> key).
Proof.
  induction m as [|[k x] m IH]; simpl.
  - intros _ [<-|[]]. now left.
  - intros Hnd. inversion Hnd as [|? ? Hk Hm]; subst.
    destruct (String.eqb_spec k key) as [->|Hne]; simpl.
    + intros [<-|Hin]; [now left|].
      right. split; [now right|].
      intros Heq. apply Hk. rewrite <- Heq. now apply in_map.
    + intros [<-|Hin].
      * right. split; [now left | assumption].
      * destruct (IH Hm Hin) as [->|[Hin' Hk']]; [now left|].
        right. split; [now right | assumption].
Qed.

Lemma keys_set key v m :
  map fst (Map.set key v m) = map fst m
  \/ (~ In key (map fst m) /\ map fst (Map.set key v m) = map fst m ++ [key]).
Proof.
  induction m as [|[k x] m IH]; simpl.
  - right. auto.
  - destruct (String.eqb_spec k key) as [->|Hne]; simpl; [now left|].
    destruct IH as [->|[Hnin ->]]; [now left|].
    right. split; [|reflexivity]. intros [H|H]; auto.
Qed.

Lemma NoDup_snoc {A} (l : list A) (a : A) :
  NoDup l -> ~ In a l -> NoDup (l ++ [a]).
Proof.
  intros Hl Ha. apply NoDup_app; [assumption | repeat constructor; auto |].
  intros x Hx [<-|[]]. contradiction.
Qed.

Lemma NoDup_keys_set key v m :
  NoDup (map fst m) -> NoDup (map fst (Map.set key v m)).
Proof.
  intros Hnd. destruct (keys_set key v m) as [->|[Hnin ->]]; [assumption|].
  now apply NoDup_snoc.
Qed.

Lemma In_sinks_set key v m r :
  In r (sinks (Map.set key v m)) -> r = e_res v \/ In r (sinks m).
Proof.
  unfold sinks. induction m as [|[k x] m IH]; simpl.
  - intros [<-|[]]. now left.
  - destruct (k =? key)%string; simpl.
    + intros [<-|H]; auto.
    + intros [<-|H]; auto. destruct (IH H); auto.
Qed.

Lemma NoDup_sinks_set key v m :
  ~ In (e_res v) (sinks m) -> NoDup (sinks m) ->
  NoDup (sinks (Map.set key v m)).
Proof.
  induction m as [|[k x] m IH]; simpl; intros Hnin Hnd.
  - repeat constructor. auto.
  - inversion Hnd as [|? ? Hx Hm]; subst.
    destruct (k =? key)%string; simpl.
    + constructor; [tauto | assumption].
    + constructor; [| apply IH; tauto].
      intros Hin. apply In_sinks_set in Hin. simpl in Hin.
      destruct Hin as [Heq|Hin]; [|contradiction].
      apply Hnin. left. exact Heq.
Qed.

Lemma Map_get_set key v m : Map.get key (Map.set key v m) = Some v.
Proof.
  unfold Map.get. induction m as [|[k x] m IH]; simpl.
  - now rewrite String.eqb_refl.
  - destruct (String.eqb_spec k key) as [->|Hne]; simpl.
    + now rewrite String.eqb_refl.
    + apply String.eqb_neq in Hne. now rewrite Hne.
Qed.

Lemma length_set_present key v m e :
  Map.get key m = Some e -> List.length (Map.set key v m) = List.length m.
Proof.
  unfold Map.get. induction m as [|[k x] m IH]; simpl; [discriminate|].
  destruct (k =? key)%string; simpl; [reflexivity|].
  intros H. now rewrite IH.
Qed.

Lemma NoDup_map_filter {A B} (f : A -> B) (keep : A -> bool) (l : list A) :
  NoDup (map f l) -> NoDup (map f (filter keep l)).
Proof.
  induction l as [|a l IH]; simpl; [auto|].
  intros Hnd. inversion Hnd as [|? ? Ha Hl]; subst.
  destruct (keep a); simpl; [|auto].
  constructor; [|auto].
  intros Hin. apply Ha. apply in_map_iff in Hin.
  destruct Hin as [x [Hx Hin]]. apply filter_In in Hin.
  apply in_map_iff. exists x. tauto.
Qed.

(** ** Writing responses *)

Lemma headersSent_app r st l :
  headersSent r {| alarmMap := alarmMap st; sent := sent st ++ l;
                   pushed := pushed st |}
  = headersSent r st || existsb (fun p => (fst p =? r)%nat) l.
Proof. unfold headersSent. simpl. apply existsb_app. Qed.

Lemma headersSent_write r res code b st :
  headersSent r (write res code b st) = headersSent r st || (res =? r)%nat.
Proof.
  unfold write. rewrite headersSent_app. simpl. now rewrite orb_false_r.
Qed.

Lemma headersSent_with_alarmMap r m st :
  headersSent r (with_alarmMap m st) = headersSent r st.
Proof. reflexivity. Qed.

Lemma headersSent_with_pushed r p st :
  headersSent r (with_pushed p st) = headersSent r st.
Proof. reflexivity. Qed.

Lemma res_send_fresh res code b st :
  headersSent res st = false ->
  res_send res code b st = (Normal tt, write res code b st).
Proof. intros H. unfold res_send. now rewrite H. Qed.

(** ** logResponse *)

Lemma logResponse_loop_spec userId confirmed :
  forall entries st,
    NoDup (sinks entries) ->
    (forall p, In p entries -> headersSent (e_res (snd p)) st = false) ->
    logResponse_loop userId confirmed entries st
    = (Normal tt,
       {| alarmMap := fold_left (deleteOwned userId) entries (alarmMap st);
          sent := sent st
                  ++ map (reply confirmed) (filter (ownedBy userId) entries);
          pushed := pushed st |}).
Proof.
  induction entries as [|[key value] rest IH]; intros st Hnd Hfresh; simpl.
  - unfold ret. now rewrite app_nil_r, state_eta.
  - inversion Hnd as [|? ? Hv Hrest]; subst.
    unfold deleteOwned, ownedBy in *. simpl.
    destruct (e_userId value =? userId) eqn:Hown.
    + unfold bind at 1.
      rewrite res_send_fresh by (apply (Hfresh (key, value)); now left).
      unfold bind at 1, alarmMap_delete.
      rewrite IH; [| assumption |].
      * simpl. unfold reply at 3. simpl. now rewrite <- app_assoc.
      * intros p Hp. rewrite headersSent_with_alarmMap, headersSent_write.
        rewrite (Hfresh p) by now right. simpl.
        apply Nat.eqb_neq. intros Heq. apply Hv. rewrite Heq.
        unfold sinks. now apply in_map with (f := fun p => e_res (snd p)).
    + apply IH; [assumption|]. intros p Hp. apply Hfresh. now right.
Qed.

Lemma filter_all {A} (l : list A) : filter (fun _ => true) l = l.
Proof. induction l as [|a l IH]; simpl; [reflexivity | now rewrite IH]. Qed.

Lemma filter_twice {A} (f g : A -> bool) (l : list A) :
  filter f (filter g l) = filter (fun x => g x && f x) l.
Proof.
  induction l as [|a l IH]; simpl; [reflexivity|].
  destruct (g a); simpl; [destruct (f a)|]; now rewrite IH.
Qed.

Lemma fold_deleteOwned userId entries :
  forall m,
    fold_left (deleteOwned userId) entries m
    = filter
        (fun q =>
           negb (existsb
                   (fun p => ownedBy userId p && (fst q =? fst p)%string)
                   entries))
        m.
Proof.
  induction entries as [|a rest IH]; intros m; simpl.
  - now rewrite filter_all.
  - rewrite IH. unfold deleteOwned, Map.delete.
    destruct (ownedBy userId a); simpl.
    + rewrite filter_twice. apply filter_ext. intros q.
      now rewrite negb_orb.
    + reflexivity.
Qed.

Lemma filter_owned userId m :
  NoDup (map fst m) ->
  filter
    (fun q =>
       negb (existsb (fun p => ownedBy userId p && (fst q =? fst p)%string) m))
    m
  = filter (fun q => negb (ownedBy userId q)) m.
Proof.
  intros Hnd. apply filter_ext_in. intros q Hq. f_equal.
  destruct (ownedBy userId q) eqn:Hown.
  - apply existsb_exists. exists q. now rewrite Hown, String.eqb_refl.
  - apply not_true_is_false. intros H. apply existsb_exists in H.
    destruct H as [p [Hp H]]. apply andb_true_iff in H. destruct H as [Hpo Hk].
    apply String.eqb_eq in Hk.
    rewrite (same_key_same_entry m q p Hnd Hq Hp Hk) in Hown. congruence.
Qed.

Lemma not_sent_to r (l : list (string * entry)) confirmed :
  ~ In r (sinks l) ->
  existsb (fun p => (fst p =? r)%nat) (map (reply confirmed) l) = false.
Proof.
  intros Hnin. apply not_true_is_false. intros H.
  apply existsb_exists in H. destruct H as [x [Hx Heq]].
  apply in_map_iff in Hx. destruct Hx as [p [<- Hp]].
  apply Nat.eqb_eq in Heq. simpl in Heq. apply Hnin. rewrite <- Heq.
  unfold sinks. now apply in_map with (f := fun p => e_res (snd p)).
Qed.

Lemma sinks_filter keep m r :
  In r (sinks (filter keep m)) -> In r (sinks m).
Proof.
  unfold sinks. rewrite !in_map_iff. intros [p [Hp Hin]].
  exists p. apply filter_In in Hin. tauto.
Qed.

(** [logResponse] on a well-formed state, for a user the store knows and
    a fresh response object: every entry of that user is answered and
    deleted, in the order of the map, and the request gets its 200. *)
Lemma logResponse_spec w username confirmed res st db_user :
  wf st ->
  headersSent res st = false ->
  ~ In res (sinks (alarmMap st)) ->
  user_findOne w username = Some db_user ->
  logResponse w username confirmed res st
  = (Normal tt, answered (user_id db_user) confirmed res st).
Proof.
  intros [Hkeys Hsinks Hunsent] Hfresh Hnin Hu.
  unfold logResponse, bind, query, try_catch. rewrite Hu.
  rewrite logResponse_loop_spec by assumption.
  rewrite fold_deleteOwned, filter_owned by assumption.
  rewrite res_send_fresh; [reflexivity|].
  unfold headersSent in *. simpl. rewrite existsb_app, Hfresh. simpl.
  apply not_sent_to. intros Hin. apply Hnin. eapply sinks_filter. exact Hin.
Qed.

(** ** The wake of confirmAlarm *)

Lemma confirmAlarm_wake_cases k st :
  confirmAlarm_wake k st
  = match Map.get (k_key k) (alarmMap st) with
    | None => (Normal tt, st)
    | Some _ =>
        let st' := with_alarmMap (Map.delete (k_key k) (alarmMap st)) st in
        if headersSent (k_res k) st then (Throw, st')
        else (Normal tt, write (k_res k) 200 (timeoutBody k) st')
    end.
Proof.
  unfold confirmAlarm_wake, bind, alarmMap_get, alarmMap_delete, res_send, ret.
  destruct (Map.get (k_key k) (alarmMap st)); reflexivity.
Qed.

Lemma confirmAlarm_wake_absent k st :
  Map.get (k_key k) (alarmMap st) = None ->
  confirmAlarm_wake k st = (Normal tt, st).
Proof. intros H. now rewrite confirmAlarm_wake_cases, H. Qed.

Lemma confirmAlarm_wake_present k st e :
  Map.get (k_key k) (alarmMap st) = Some e ->
  headersSent (k_res k) st = false ->
  confirmAlarm_wake k st
  = (Normal tt,
     write (k_res k) 200 (timeoutBody k)
       (with_alarmMap (Map.delete (k_key k) (alarmMap st)) st)).
Proof. intros H Hf. rewrite confirmAlarm_wake_cases, H. simpl. now rewrite Hf. Qed.

(** ** The invariant of the server *)

Lemma In_remove_nth {A} (i : nat) (l : list A) x :
  In x (remove_nth i l) -> In x l.
Proof.
  unfold remove_nth. intros H. apply in_app_or in H. destruct H as [H|H].
  - rewrite <- (firstn_skipn i l). apply in_or_app. now left.
  - rewrite <- (firstn_skipn (S i) l). apply in_or_app. now right.
Qed.

Lemma In_sinks (m : list (string * entry)) p :
  In p m -> In (e_res (snd p)) (sinks m).
Proof. intros H. unfold sinks. now apply in_map with (f := fun p => e_res (snd p)). Qed.

Lemma sinks_In (m : list (string * entry)) r :
  In r (sinks m) -> exists p, In p m /\ e_res (snd p) = r.
Proof.
  unfold sinks. rewrite in_map_iff. intros [p [Hp Hin]]. exists p. auto.
Qed.

Lemma fresh_response n :
  invariant n ->
  headersSent (nextRes n) (globals n) = false
  /\ ~ In (nextRes n) (sinks (alarmMap (globals n))).
Proof.
  intros Hinv. split.
  - apply not_true_is_false. intros H. apply (inv_sent n Hinv) in H. lia.
  - intros H. apply sinks_In in H. destruct H as [p [Hp Heq]].
    apply (inv_map n Hinv) in Hp. lia.
Qed.

(** A request that only writes its own response (and perhaps calls the
    push service) keeps the invariant. *)
Lemma invariant_respond n code b p :
  invariant n ->
  invariant {| globals := write (nextRes n) code b (with_pushed p (globals n));
               timers := timers n;
               nextRes := S (nextRes n) |}.
Proof.
  intros Hinv. destruct Hinv as [[Hkeys Hsinks Hunsent] Hmap Hsent Htimers Howner].
  split; [split|..]; cbn [globals timers nextRes].
  - exact Hkeys.
  - exact Hsinks.
  - intros q Hq. rewrite headersSent_write, headersSent_with_pushed.
    rewrite (Hunsent q Hq). simpl. apply Nat.eqb_neq.
    specialize (Hmap q Hq). lia.
  - intros q Hq. specialize (Hmap q Hq). lia.
  - intros r H. rewrite headersSent_write, headersSent_with_pushed in H.
    apply orb_true_iff in H. destruct H as [H|H].
    + specialize (Hsent r H). lia.
    + apply Nat.eqb_eq in H. lia.
  - intros k Hk. specialize (Htimers k Hk). lia.
  - exact Howner.
Qed.

(** A request that throws before writing anything keeps it too. *)
Lemma invariant_idle n :
  invariant n ->
  invariant {| globals := globals n; timers := timers n;
               nextRes := S (nextRes n) |}.
Proof.
  intros Hinv. destruct Hinv as [Hwf Hmap Hsent Htimers Howner].
  split; cbn [globals timers nextRes]; auto.
  - intros q Hq. specialize (Hmap q Hq). lia.
  - intros r H. specialize (Hsent r H). lia.
  - intros k Hk. specialize (Htimers k Hk). lia.
Qed.

Lemma write_with_pushed res code b st :
  write res code b st = write res code b (with_pushed (pushed st) st).
Proof. reflexivity. Qed.

Lemma invariant_boot : invariant boot.
Proof.
  split; [split|..]; simpl; try constructor; try contradiction;
    try discriminate.
Qed.

Lemma invariant_confirm n w alarmId timestamp n' :
  invariant n -> step (GetConfirm w alarmId timestamp) n = Some n' ->
  invariant n'.
Proof.
  intros Hinv Hstep. unfold step in Hstep.
  destruct (fresh_response n Hinv) as [Hf Hnin].
  destruct (confirmAlarm_cases w alarmId timestamp (nextRes n) (globals n) Hf)
    as [(code & msg & _ & Heq) | (alarm & u & subs & Heq)];
    cbv zeta in Heq; rewrite Heq in Hstep; injection Hstep as <-.
  - rewrite write_with_pushed. now apply invariant_respond.
  - destruct Hinv as [[Hkeys Hsinks Hunsent] Hmap Hsent Htimers Howner].
    set (t := dispatches w (confirmPrompt w alarm timestamp) subs
                (List.length (pushed (globals n)))).
    set (e := pendingEntry (nextRes n) alarm u subs t).
    set (key := correlationKey alarm timestamp).
    split; [split|..]; cbn [globals timers nextRes alarmMap with_alarmMap].
    + now apply NoDup_keys_set.
    + now apply NoDup_sinks_set.
    + intros p Hp. rewrite headersSent_with_alarmMap, headersSent_with_pushed.
      apply In_set in Hp; [|assumption].
      destruct Hp as [->|[Hp _]]; [exact Hf | now apply Hunsent].
    + intros p Hp. apply In_set in Hp; [|assumption].
      destruct Hp as [->|[Hp _]]; [simpl; lia|].
      specialize (Hmap p Hp). lia.
    + intros r H. rewrite headersSent_with_alarmMap, headersSent_with_pushed in H.
      specialize (Hsent r H). lia.
    + intros k Hk. apply in_app_or in Hk. destruct Hk as [Hk|[<-|[]]].
      * specialize (Htimers k Hk). lia.
      * simpl. lia.
    + intros p k Hp Hk Heq'. apply In_set in Hp; [|assumption].
      apply in_app_or in Hk.
      destruct Hp as [->|[Hp Hne]]; destruct Hk as [Hk|[<-|[]]].
      * specialize (Htimers k Hk). simpl in Heq'. lia.
      * reflexivity.
      * now apply Howner.
      * specialize (Hmap p Hp). simpl in Heq'. lia.
Qed.

Lemma invariant_notify n w payload n' :
  invariant n -> step (PostNotify w payload) n = Some n' -> invariant n'.
Proof.
  intros Hinv Hstep. unfold step in Hstep.
  destruct (fresh_response n Hinv) as [Hf _].
  destruct (subscription_findAll w) as [subs|] eqn:Hq.
  - rewrite (notifyAllUsers_spec w payload _ _ subs Hq Hf) in Hstep.
    injection Hstep as <-. now apply invariant_respond.
  - unfold notifyAllUsers, bind, query in Hstep. rewrite Hq in Hstep.
    injection Hstep as <-. now apply invariant_idle.
Qed.

Lemma step_response n w username confirmed db_user :
  invariant n ->
  user_findOne w username = Some db_user ->
  step (GetResponse w username confirmed) n
  = Some {| globals := answered (user_id db_user) confirmed (nextRes n)
                                (globals n);
            timers := timers n;
            nextRes := S (nextRes n) |}.
Proof.
  intros Hinv Hu. unfold step.
  destruct (fresh_response n Hinv) as [Hf Hnin].
  now rewrite (logResponse_spec w username confirmed _ _ db_user
                 (inv_wf n Hinv) Hf Hnin Hu).
Qed.

Lemma headersSent_answered r userId confirmed res st :
  headersSent r (answered userId confirmed res st) = true ->
  headersSent r st = true
  \/ (exists p, In p (alarmMap st) /\ ownedBy userId p = true
                /\ e_res (snd p) = r)
  \/ r = res.
Proof.
  unfold headersSent, answered. simpl. rewrite !existsb_app. simpl.
  rewrite orb_false_r, !orb_true_iff.
  intros [[H|H]|H]; [now left | right; left | right; right].
  - apply existsb_exists in H. destruct H as [x [Hx Heq]].
    apply in_map_iff in Hx. destruct Hx as [p [<- Hp]].
    apply filter_In in Hp. apply Nat.eqb_eq in Heq. exists p. tauto.
  - apply Nat.eqb_eq in H. auto.
Qed.

Lemma invariant_response n w username confirmed n' :
  invariant n -> step (GetResponse w username confirmed) n = Some n' ->
  invariant n'.
Proof.
  intros Hinv Hstep.
  destruct (user_findOne w username) as [db_user|] eqn:Hu.
  - rewrite (step_response n w username confirmed db_user Hinv Hu) in Hstep.
    injection Hstep as <-.
    destruct Hinv as [[Hkeys Hsinks Hunsent] Hmap Hsent Htimers Howner].
    split; [split|..]; cbn [globals timers nextRes alarmMap answered].
    + now apply NoDup_map_filter.
    + now apply (NoDup_map_filter (fun p => e_res (snd p))).
    + intros p Hp. apply filter_In in Hp. destruct Hp as [Hp Hown].
      apply not_true_is_false. intros H.
      apply headersSent_answered in H.
      destruct H as [H|[(q & Hq & Hqo & Heq)|H]].
      * rewrite (Hunsent p Hp) in H. discriminate.
      * assert (q = p)
          by (apply (NoDup_map_inj (fun p => e_res (snd p)) _ q p Hsinks Hq Hp Heq)).
        subst q. rewrite Hqo in Hown. discriminate.
      * specialize (Hmap p Hp). lia.
    + intros p Hp. apply filter_In in Hp. destruct Hp as [Hp _].
      specialize (Hmap p Hp). lia.
    + intros r H. apply headersSent_answered in H.
      destruct H as [H|[(q & Hq & _ & <-)| -> ]].
      * specialize (Hsent r H). lia.
      * specialize (Hmap q Hq). lia.
      * lia.
    + intros k Hk. specialize (Htimers k Hk). lia.
    + intros p k Hp Hk. apply filter_In in Hp. destruct Hp as [Hp _].
      now apply Howner.
  - unfold step, logResponse, bind, query in Hstep. rewrite Hu in Hstep.
    injection Hstep as <-. now apply invariant_idle.
Qed.

Lemma invariant_timeout n i n' :
  invariant n -> step (Timeout i) n = Some n' -> invariant n'.
Proof.
  intros Hinv Hstep. unfold step in Hstep.
  destruct (nth_error (timers n) i) as [k|] eqn:Hk; [|discriminate].
  apply nth_error_In in Hk.
  destruct Hinv as [[Hkeys Hsinks Hunsent] Hmap Hsent Htimers Howner].
  rewrite confirmAlarm_wake_cases in Hstep.
  destruct (Map.get (k_key k) (alarmMap (globals n))) as [e|] eqn:Hget.
  - cbv zeta in Hstep.
    destruct (headersSent (k_res k) (globals n)) eqn:Hsentk;
      injection Hstep as <-;
      (split; [split|..];
       cbn [globals timers nextRes alarmMap with_alarmMap write]).
    + now apply NoDup_map_filter.
    + now apply (NoDup_map_filter (fun p => e_res (snd p))).
    + intros p Hp. apply In_delete in Hp. rewrite headersSent_with_alarmMap.
      now apply Hunsent.
    + intros p Hp. apply In_delete in Hp. now apply Hmap.
    + intros r H. rewrite headersSent_with_alarmMap in H. now apply Hsent.
    + intros k' Hk'. apply In_remove_nth in Hk'. now apply Htimers.
    + intros p k' Hp Hk'. apply In_delete in Hp. apply In_remove_nth in Hk'.
      now apply Howner.
    + now apply NoDup_map_filter.
    + now apply (NoDup_map_filter (fun p => e_res (snd p))).
    + intros p Hp. apply In_delete in Hp. destruct Hp as [Hp Hne].
      change (headersSent (e_res (snd p))
                (write (k_res k) 200 (timeoutBody k)
                   (with_alarmMap (Map.delete (k_key k) (alarmMap (globals n)))
                      (globals n))) = false).
      rewrite headersSent_write, headersSent_with_alarmMap, (Hunsent p Hp).
      simpl. apply Nat.eqb_neq. intros Heq. apply Hne.
      apply Howner; auto.
    + intros p Hp. apply In_delete in Hp. now apply Hmap.
    + intros r H.
      change (headersSent r
                (write (k_res k) 200 (timeoutBody k)
                   (with_alarmMap (Map.delete (k_key k) (alarmMap (globals n)))
                      (globals n))) = true) in H.
      rewrite headersSent_write, headersSent_with_alarmMap in H.
      apply orb_true_iff in H. destruct H as [H|H]; [now apply Hsent|].
      apply Nat.eqb_eq in H. subst r. now apply Htimers.
    + intros k' Hk'. apply In_remove_nth in Hk'. now apply Htimers.
    + intros p k' Hp Hk'. apply In_delete in Hp. apply In_remove_nth in Hk'.
      now apply Howner.
  - injection Hstep as <-.
    split; [split|..]; cbn [globals timers nextRes]; auto.
    + intros k' Hk'. apply In_remove_nth in Hk'. now apply Htimers.
    + intros p k' Hp Hk'. apply In_remove_nth in Hk'. now apply Howner.
Qed.

Lemma step_invariant ev n n' :
  invariant n -> step ev n = Some n' -> invariant n'.
Proof.
  destruct ev.
  - apply invariant_confirm.
  - apply invariant_response.
  - apply invariant_notify.
  - apply invariant_timeout.
Qed.

Lemma reachable_invariant n : reachable n -> invariant n.
Proof.
  induction 1 as [|ev n n' _ IH Hstep].
  - exact invariant_boot.
  - exact (step_invariant ev n n' IH Hstep).
Qed.

Lemma reachable_run evs :
  forall n n', reachable n -> run evs n = Some n' -> reachable n'.
Proof.
  induction evs as [|ev evs IH]; simpl; intros n n' Hn Hrun.
  - now injection Hrun as <-.
  - destruct (step ev n) as [n1|] eqn:Hstep; [|discriminate].
    apply (IH n1 n'); [|assumption].
    exact (reachable_step ev n n1 Hn Hstep).
Qed.

(** ** Responses per request *)

Lemma responsesTo_unsent r st :
  headersSent r st = false -> responsesTo r st = [].
Proof.
  unfold headersSent, responsesTo. intros H.
  induction (sent st) as [|x l IH]; simpl in *; [reflexivity|].
  apply orb_false_iff in H. destruct H as [Hx Hl].
  rewrite Hx. auto.
Qed.

Lemma filter_none {A} (f : A -> bool) (l : list A) :
  (forall x, In x l -> f x = false) -> filter f l = [].
Proof.
  induction l as [|a l IH]; simpl; intros H; [reflexivity|].
  rewrite (H a) by now left. apply IH. intros x Hx. apply H. now right.
Qed.

Lemma filter_the_one {A} (f : A -> nat) (l : list A) (p : A) :
  NoDup (map f l) -> In p l ->
  filter (fun q => (f q =? f p)%nat) l = [p].
Proof.
  induction l as [|a l IH]; simpl; [contradiction|].
  intros Hnd Hin. inversion Hnd as [|? ? Ha Hl]; subst.
  destruct Hin as [->|Hin].
  - rewrite Nat.eqb_refl. f_equal. apply filter_none.
    intros x Hx. apply Nat.eqb_neq. intros Heq. apply Ha. rewrite <- Heq.
    now apply in_map.
  - destruct (Nat.eqb_spec (f a) (f p)) as [Heq|Hne].
    + exfalso. apply Ha. rewrite Heq. now apply in_map.
    + now apply IH.
Qed.

Lemma responsesTo_answered r userId confirmed res st :
  responsesTo r (answered userId confirmed res st)
  = responsesTo r st
    ++ map (fun p => snd (reply confirmed p))
         (filter (fun p => (e_res (snd p) =? r)%nat)
                 (filter (ownedBy userId) (alarmMap st)))
    ++ (if (res =? r)%nat then [(200, Text "Response received")] else []).
Proof.
  unfold responsesTo, answered. simpl.
  rewrite !filter_app, !map_app, <- app_assoc. f_equal. f_equal.
  - induction (filter (ownedBy userId) (alarmMap st)) as [|p l IH]; simpl;
      [reflexivity|].
    destruct (e_res (snd p) =? r)%nat; simpl; now rewrite IH.
  - simpl. now destruct (res =? r)%nat.
Qed.

(** An entry of the responding user gets exactly the reply built from
    its own fields. *)
Lemma responsesTo_owned userId confirmed res st p :
  wf st -> In p (alarmMap st) -> ownedBy userId p = true ->
  e_res (snd p) <> res ->
  responsesTo (e_res (snd p)) (answered userId confirmed res st)
  = [snd (reply confirmed p)].
Proof.
  intros [Hkeys Hsinks Hunsent] Hp Hown Hne.
  rewrite responsesTo_answered.
  rewrite (responsesTo_unsent _ _ (Hunsent p Hp)).
  apply Nat.eqb_neq in Hne. rewrite Nat.eqb_sym in Hne. rewrite Hne.
  rewrite app_nil_r. simpl.
  rewrite (filter_the_one (fun q => e_res (snd q)) _ p).
  - reflexivity.
  - now apply (NoDup_map_filter (fun p => e_res (snd p))).
  - apply filter_In. auto.
Qed.



(** ** The correlator *)

Lemma ownedBy_true userId p :
  ownedBy userId p = true <-> e_userId (snd p) = userId.
Proof. unfold ownedBy. apply Z.eqb_eq. Qed.

Lemma ownedBy_false userId p :
  ownedBy userId p = false <-> e_userId (snd p) <> userId.
Proof. unfold ownedBy. apply Z.eqb_neq. Qed.

(** C4: [logResponse] answers every entry of [alarmMap] whose user is
    the responding user with the value of [confirmed] and the location,
    counts and errors stored in that entry, and deletes it; the entries
    of other users stay in the map, unanswered. *)
Theorem logResponse_completes_owned (n : node) (w : world)
  (username : string) (confirmed : JS.value) (db_user : user) :
  reachable n ->
  user_findOne w username = Some db_user ->
  exists n',
    step (GetResponse w username confirmed) n = Some n'
    /\ (forall p, In p (alarmMap (globals n)) ->
                  e_userId (snd p) = user_id db_user ->
                  responsesTo (e_res (snd p)) (globals n')
                  = [(200, Confirmation confirmed (e_location (snd p))
                             (e_total (snd p)) (e_successful (snd p))
                             (e_errors (snd p)))]
                  /\ Map.get (fst p) (alarmMap (globals n')) = None)
    /\ (forall p, In p (alarmMap (globals n)) ->
                  e_userId (snd p) <> user_id db_user ->
                  In p (alarmMap (globals n'))
                  /\ responsesTo (e_res (snd p)) (globals n') = [])
    /\ alarmMap (globals n')
       = filter (fun p => negb (e_userId (snd p) =? user_id db_user))
                (alarmMap (globals n))
    /\ timers n' = timers n.
Proof.
  intros Hreach Hu.
  pose proof (reachable_invariant n Hreach) as Hinv.
  pose proof (step_response n w username confirmed db_user Hinv Hu) as Hstep.
  eexists. split; [exact Hstep|].
  pose proof (reachable_invariant _ (reachable_step _ _ _ Hreach Hstep)) as Hinv'.
  cbn [globals timers].
  split; [|split; [|split; reflexivity]].
  - intros p Hp Hown. apply ownedBy_true in Hown. split.
    + apply responsesTo_owned; auto; [exact (inv_wf n Hinv)|].
      pose proof (inv_map n Hinv p Hp). lia.
    + destruct (Map.get (fst p) _) as [e'|] eqn:Hget; [|reflexivity].
      apply Map_get_In in Hget. simpl in Hget. apply filter_In in Hget.
      destruct Hget as [Hin Hno].
      rewrite (same_key_same_entry _ _ _ (wf_keys _ (inv_wf n Hinv)) Hin Hp eq_refl)
        in Hno.
      rewrite Hown in Hno. discriminate.
  - intros p Hp Hother. apply ownedBy_false in Hother.
    assert (Hin : In p (alarmMap (answered (user_id db_user) confirmed
                                           (nextRes n) (globals n)))).
    { simpl. apply filter_In. now rewrite Hother. }
    split; [exact Hin|].
    apply responsesTo_unsent.
    exact (wf_unsent _ (inv_wf _ Hinv') p Hin).
Qed.

Lemma reachable_waiting : reachable Demo.waiting.
Proof.
  apply (reachable_step (GetConfirm Demo.store "1" 1700000000) boot).
  - exact reachable_boot.
  - reflexivity.
Qed.

Lemma logResponse_completes_owned_witness :
  exists n',
    step (GetResponse Demo.store "Blaze" (JS.Bool true)) Demo.waiting = Some n'
    /\ (forall p, In p (alarmMap (globals Demo.waiting)) ->
                  e_userId (snd p) = user_id Demo.blaze ->
                  responsesTo (e_res (snd p)) (globals n')
                  = [(200, Confirmation (JS.Bool true) (e_location (snd p))
                             (e_total (snd p)) (e_successful (snd p))
                             (e_errors (snd p)))]
                  /\ Map.get (fst p) (alarmMap (globals n')) = None)
    /\ (forall p, In p (alarmMap (globals Demo.waiting)) ->
                  e_userId (snd p) <> user_id Demo.blaze ->
                  In p (alarmMap (globals n'))
                  /\ responsesTo (e_res (snd p)) (globals n') = [])
    /\ alarmMap (globals n')
       = filter (fun p => negb (e_userId (snd p) =? user_id Demo.blaze))
                (alarmMap (globals Demo.waiting))
    /\ timers n' = timers Demo.waiting.
Proof.
  apply (logResponse_completes_owned Demo.waiting Demo.store "Blaze"
           (JS.Bool true) Demo.blaze).
  - exact reachable_waiting.
  - reflexivity.
Defined.



(** ** A confirmation cycle *)

Lemma step_confirm_found n w alarmId timestamp alarm userId dbSubscriptions :
  resolves w alarmId alarm userId dbSubscriptions ->
  let t := dispatches w (confirmPrompt w alarm timestamp) dbSubscriptions
             (List.length (pushed (globals n))) in
  step (GetConfirm w alarmId timestamp) n
  = Some {| globals :=
              with_alarmMap
                (Map.set (correlationKey alarm timestamp)
                   (pendingEntry (nextRes n) alarm userId dbSubscriptions t)
                   (alarmMap (globals n)))
                (with_pushed (pushed (globals n) ++ t) (globals n));
            timers := timers n
                      ++ [suspension (nextRes n) alarm timestamp
                            dbSubscriptions t];
            nextRes := S (nextRes n) |}.
Proof.
  intros ([others Ha] & Hu & Hnz & Hs & Hne) t. unfold step.
  pose proof (confirmAlarm_found w alarmId timestamp (nextRes n) (globals n)
                alarm others userId dbSubscriptions Ha Hu Hnz Hs Hne) as H.
  cbv zeta in H. fold t in H. now rewrite H.
Qed.

Lemma answered_get_owned userId confirmed res st p :
  wf st -> In p (alarmMap st) -> ownedBy userId p = true ->
  Map.get (fst p) (alarmMap (answered userId confirmed res st)) = None.
Proof.
  intros Hwf Hp Hown.
  destruct (Map.get (fst p) _) as [e'|] eqn:Hget; [|reflexivity].
  apply Map_get_In in Hget. simpl in Hget. apply filter_In in Hget.
  destruct Hget as [Hin Hno].
  rewrite (same_key_same_entry _ _ _ (wf_keys _ Hwf) Hin Hp eq_refl) in Hno.
  rewrite Hown in Hno. discriminate.
Qed.

Lemma resolves_demo :
  resolves Demo.store "1" Demo.alarm1 1
    [Demo.device "phone"; Demo.device "laptop"].
Proof.
  repeat split; try reflexivity; try discriminate.
  now exists [].
Qed.

(** Alarm "1" with two devices, the second call to the push service
    failing: the response of the user reaches the waiting request, and
    the timer then wakes to nothing. *)
Example confirm_scenario :
  option_map (fun n => sent (globals n))
    (run [GetConfirm Demo.store "1" 1700000000;
          GetResponse Demo.store "Blaze" (JS.Bool true);
          Timeout 0] boot)
  = Some [(0%nat, (200, Confirmation (JS.Bool true) "Unknown" 2 1
                          [dispatchError]));
          (1%nat, (200, Text "Response received"))].
Proof. reflexivity. Qed.

(** ** Abandoned requests *)

Ltac abandoned_parts :=
  split; [|split; [|split]]; cbn [globals timers nextRes].

Lemma abandoned_step r ev n n' :
  invariant n -> abandoned r n -> step ev n = Some n' -> abandoned r n'.
Proof.
  intros Hinv (Hlt & Hunsent & Hmap & Htimers) Hstep.
  destruct (fresh_response n Hinv) as [Hf Hnin].
  destruct ev as [w alarmId timestamp | w username confirmed | w payload | i];
    unfold step in Hstep.
  - destruct (confirmAlarm_cases w alarmId timestamp (nextRes n) (globals n) Hf)
      as [(code & msg & _ & Heq) | (alarm & u & subs & Heq)];
      cbv zeta in Heq; rewrite Heq in Hstep; injection Hstep as <-;
      abandoned_parts.
    + lia.
    + rewrite headersSent_write, Hunsent. simpl. apply Nat.eqb_neq. lia.
    + exact Hmap.
    + exact Htimers.
    + lia.
    + exact Hunsent.
    + intros H. apply In_sinks_set in H. simpl in H.
      destruct H as [H|H]; [lia | contradiction].
    + rewrite map_app. intros H. apply in_app_or in H.
      destruct H as [H|[H|[]]]; [contradiction | simpl in H; lia].
  - destruct (user_findOne w username) as [db_user|] eqn:Hu.
    + rewrite (logResponse_spec w username confirmed _ _ db_user
                 (inv_wf n Hinv) Hf Hnin Hu) in Hstep.
      injection Hstep as <-.
      abandoned_parts.
      * lia.
      * apply not_true_is_false. intros H. apply headersSent_answered in H.
        destruct H as [H|[(q & Hq & _ & Heq)|H]].
        -- congruence.
        -- apply Hmap. rewrite <- Heq. now apply In_sinks.
        -- lia.
      * intros H. apply sinks_filter in H. contradiction.
      * exact Htimers.
    + unfold logResponse, bind, query in Hstep. rewrite Hu in Hstep.
      injection Hstep as <-.
      abandoned_parts; auto.
  - destruct (subscription_findAll w) as [subs|] eqn:Hq.
    + rewrite (notifyAllUsers_spec w payload _ _ subs Hq Hf) in Hstep.
      injection Hstep as <-.
      abandoned_parts; auto.
      rewrite headersSent_write, headersSent_with_pushed, Hunsent. simpl.
      apply Nat.eqb_neq. lia.
    + unfold notifyAllUsers, bind, query in Hstep. rewrite Hq in Hstep.
      injection Hstep as <-.
      abandoned_parts; auto.
  - destruct (nth_error (timers n) i) as [k|] eqn:Hk; [|discriminate].
    apply nth_error_In in Hk.
    assert (Hne : k_res k <> r).
    { intros Heq. apply Htimers. rewrite <- Heq. now apply in_map. }
    assert (Htimers' : ~ In r (map k_res (remove_nth i (timers n)))).
    { intros H. apply in_map_iff in H. destruct H as [k' [Heq Hk']].
      apply In_remove_nth in Hk'. apply Htimers. rewrite <- Heq.
      now apply in_map. }
    rewrite confirmAlarm_wake_cases in Hstep.
    destruct (Map.get (k_key k) (alarmMap (globals n))) as [e|].
    + cbv zeta in Hstep.
      destruct (headersSent (k_res k) (globals n)); injection Hstep as <-;
        abandoned_parts; auto.
      * intros H. apply sinks_filter in H. contradiction.
      * rewrite headersSent_write, headersSent_with_alarmMap, Hunsent. simpl.
        now apply Nat.eqb_neq.
      * intros H. apply sinks_filter in H. contradiction.
    + injection Hstep as <-.
      abandoned_parts; auto.
Qed.

Lemma abandoned_run r evs :
  forall n n',
    invariant n -> abandoned r n -> run evs n = Some n' -> abandoned r n'.
Proof.
  induction evs as [|ev evs IH]; simpl; intros n n' Hinv Hab Hrun.
  - now injection Hrun as <-.
  - destruct (step ev n) as [n1|] eqn:Hstep; [|discriminate].
    apply (IH n1 n'); [| |assumption].
    + exact (step_invariant ev n n1 Hinv Hstep).
    + exact (abandoned_step r ev n n1 Hinv Hab Hstep).
Qed.

Lemma nth_error_middle {A} (l r : list A) (x : A) :
  nth_error (l ++ x :: r) (List.length l) = Some x.
Proof. rewrite nth_error_app2, Nat.sub_diag by lia. reflexivity. Qed.

Lemma remove_nth_middle {A} (l r : list A) (x : A) :
  remove_nth (List.length l) (l ++ x :: r) = l ++ r.
Proof.
  unfold remove_nth. induction l as [|a l IH]; simpl in *; [reflexivity|].
  f_equal. exact IH.
Qed.

Lemma correlationKey_same a1 a2 timeStamp :
  alarm_id a1 = alarm_id a2 ->
  correlationKey a1 timeStamp = correlationKey a2 timeStamp.
Proof. unfold correlationKey. now intros ->. Qed.

Lemma Map_set_twice key v1 v2 m :
  List.length (Map.set key v2 (Map.set key v1 m))
  = List.length (Map.set key v1 m).
Proof.
  apply (length_set_present key v2 _ v1). apply Map_get_set.
Qed.

Lemma sinks_set_twice key v1 v2 m r :
  NoDup (map fst m) ->
  In r (sinks (Map.set key v2 (Map.set key v1 m))) ->
  r = e_res v2 \/ In r (sinks m).
Proof.
  intros Hnd H. apply sinks_In in H. destruct H as [p [Hp <-]].
  apply In_set in Hp; [|now apply NoDup_keys_set].
  destruct Hp as [->|[Hp Hne]]; [now left|].
  apply In_set in Hp; [|assumption].
  destruct Hp as [->|[Hp _]]; [simpl in Hne; contradiction|].
  right. now apply In_sinks.
Qed.

(** ** Two confirmations under one key *)

Lemma step_afterConfirm n w alarmId timestamp alarm userId dbSubscriptions :
  resolves w alarmId alarm userId dbSubscriptions ->
  step (GetConfirm w alarmId timestamp) n
  = Some (afterConfirm w alarm userId dbSubscriptions timestamp n).
Proof. intros H. now apply step_confirm_found. Qed.

(** C8: a second [confirmAlarm] for the same alarm and timestamp, while
    the entry of the first is still in the map, is not refused: nothing
    is written to either request, the second entry replaces the first
    under the shared key (the map does not grow and no longer holds the
    response object of the first request), and both closures wait. *)
Theorem duplicate_confirm_overwrites (n : node) (w1 w2 : world)
  (alarmId : string) (timestamp : Z) (a1 a2 : alarm) (u1 u2 : Z)
  (subs1 subs2 : list subscription) :
  reachable n ->
  resolves w1 alarmId a1 u1 subs1 ->
  resolves w2 alarmId a2 u2 subs2 ->
  alarm_id a1 = alarm_id a2 ->
  exists n1 n2 e1 e2 k1 k2,
    step (GetConfirm w1 alarmId timestamp) n = Some n1
    /\ Map.get (correlationKey a1 timestamp) (alarmMap (globals n1)) = Some e1
    /\ e_res e1 = nextRes n
    /\ step (GetConfirm w2 alarmId timestamp) n1 = Some n2
    /\ Map.get (correlationKey a1 timestamp) (alarmMap (globals n2)) = Some e2
    /\ e_res e2 = nextRes n1
    /\ e_location e2 = alarm_location a2
    /\ e_total e2 = List.length subs2
    /\ List.length (alarmMap (globals n2)) = List.length (alarmMap (globals n1))
    /\ ~ In (nextRes n) (sinks (alarmMap (globals n2)))
    /\ sent (globals n2) = sent (globals n)
    /\ timers n2 = timers n ++ [k1; k2]
    /\ k_res k1 = nextRes n
    /\ k_res k2 = nextRes n1
    /\ k_key k1 = correlationKey a1 timestamp
    /\ k_key k2 = correlationKey a1 timestamp.
Proof.
  intros Hreach Hr1 Hr2 Hid.
  pose proof (reachable_invariant n Hreach) as Hinv.
  pose proof (correlationKey_same a1 a2 timestamp Hid) as Hkey.
  pose proof (step_afterConfirm n w1 alarmId timestamp a1 u1 subs1 Hr1) as H1.
  set (n1 := afterConfirm w1 a1 u1 subs1 timestamp n) in *.
  pose proof (step_afterConfirm n1 w2 alarmId timestamp a2 u2 subs2 Hr2) as H2.
  exists n1, (afterConfirm w2 a2 u2 subs2 timestamp n1).
  do 4 eexists.
  split; [exact H1|].
  split; [apply Map_get_set|]. split; [reflexivity|].
  split; [exact H2|].
  split; [cbn [afterConfirm globals alarmMap with_alarmMap]; rewrite <- Hkey;
          apply Map_get_set|].
  split; [reflexivity|]. split; [reflexivity|]. split; [reflexivity|].
  split; [cbn [afterConfirm globals alarmMap with_alarmMap]; rewrite <- Hkey;
          apply Map_set_twice|].
  split.
  { cbn [afterConfirm globals alarmMap with_alarmMap]. rewrite <- Hkey.
    intros H. apply sinks_set_twice in H; [|exact (wf_keys _ (inv_wf n Hinv))].
    destruct H as [H|H]; [simpl in H; lia|].
    destruct (fresh_response n Hinv) as [_ Hnin]. contradiction. }
  split; [reflexivity|].
  split; [unfold n1; cbn [afterConfirm timers]; rewrite <- app_assoc;
          reflexivity|].
  split; [reflexivity|]. split; [reflexivity|]. split; [reflexivity|].
  simpl. now rewrite Hkey.
Qed.

Lemma duplicate_confirm_overwrites_witness :
  exists n1 n2 e1 e2 k1 k2,
    step (GetConfirm Demo.store "1" 1700000000) boot = Some n1
    /\ Map.get (correlationKey Demo.alarm1 1700000000) (alarmMap (globals n1))
       = Some e1
    /\ e_res e1 = nextRes boot
    /\ step (GetConfirm Demo.store "1" 1700000000) n1 = Some n2
    /\ Map.get (correlationKey Demo.alarm1 1700000000) (alarmMap (globals n2))
       = Some e2
    /\ e_res e2 = nextRes n1
    /\ e_location e2 = alarm_location Demo.alarm1
    /\ e_total e2 = List.length [Demo.device "phone"; Demo.device "laptop"]
    /\ List.length (alarmMap (globals n2)) = List.length (alarmMap (globals n1))
    /\ ~ In (nextRes boot) (sinks (alarmMap (globals n2)))
    /\ sent (globals n2) = sent (globals boot)
    /\ timers n2 = timers boot ++ [k1; k2]
    /\ k_res k1 = nextRes boot
    /\ k_res k2 = nextRes n1
    /\ k_key k1 = correlationKey Demo.alarm1 1700000000
    /\ k_key k2 = correlationKey Demo.alarm1 1700000000.
Proof.
  apply (duplicate_confirm_overwrites boot Demo.store Demo.store "1"
           1700000000 Demo.alarm1 Demo.alarm1 1 1
           [Demo.device "phone"; Demo.device "laptop"]
           [Demo.device "phone"; Demo.device "laptop"]).
  - exact reachable_boot.
  - exact resolves_demo.
  - exact resolves_demo.
  - reflexivity.
Defined.

Lemma step_timeout_present n i k e :
  nth_error (timers n) i = Some k ->
  Map.get (k_key k) (alarmMap (globals n)) = Some e ->
  headersSent (k_res k) (globals n) = false ->
  step (Timeout i) n
  = Some {| globals :=
              write (k_res k) 200 (timeoutBody k)
                (with_alarmMap (Map.delete (k_key k) (alarmMap (globals n)))
                               (globals n));
            timers := remove_nth i (timers n);
            nextRes := nextRes n |}.
Proof.
  intros Hk Hget Hf. unfold step. rewrite Hk.
  now rewrite (confirmAlarm_wake_present k (globals n) e Hget Hf).
Qed.

Lemma step_timeout_absent n i k :
  nth_error (timers n) i = Some k ->
  Map.get (k_key k) (alarmMap (globals n)) = None ->
  step (Timeout i) n
  = Some {| globals := globals n;
            timers := remove_nth i (timers n);
            nextRes := nextRes n |}.
Proof.
  intros Hk Hget. unfold step. rewrite Hk.
  now rewrite (confirmAlarm_wake_absent k (globals n) Hget).
Qed.

(** C9: after the overwrite, and with no response from the user, the
    request that stored first wakes, finds the entry of the second
    request under its key, deletes it and answers its own caller with the
    data it captured itself; the request that stored second wakes to no
    entry and writes nothing, and from then on no step of the server ever
    writes to its response object. *)
Theorem overwritten_request_unanswered (n : node) (w1 w2 : world)
  (alarmId : string) (timestamp : Z) (a1 a2 : alarm) (u1 u2 : Z)
  (subs1 subs2 : list subscription) :
  reachable n ->
  resolves w1 alarmId a1 u1 subs1 ->
  resolves w2 alarmId a2 u2 subs2 ->
  alarm_id a1 = alarm_id a2 ->
  exists n2 k1 k2 e2 n3 n4,
    run [GetConfirm w1 alarmId timestamp; GetConfirm w2 alarmId timestamp] n
    = Some n2
    /\ timers n2 = timers n ++ [k1; k2]
    /\ k_res k1 = nextRes n
    /\ k_res k2 = S (nextRes n)
    /\ k_location k1 = alarm_location a1
    /\ k_total k1 = List.length subs1
    /\ Map.get (k_key k1) (alarmMap (globals n2)) = Some e2
    /\ e_res e2 = k_res k2
    /\ step (Timeout (List.length (timers n))) n2 = Some n3
    /\ sent (globals n3)
       = sent (globals n2)
         ++ [(k_res k1,
              (200, Confirmation (JS.Str "null") (k_location k1) (k_total k1)
                      (k_successful k1) (k_errors k1)))]
    /\ Map.get (k_key k1) (alarmMap (globals n3)) = None
    /\ nth_error (timers n3) (List.length (timers n)) = Some k2
    /\ step (Timeout (List.length (timers n))) n3 = Some n4
    /\ globals n4 = globals n3
    /\ timers n4 = timers n
    /\ forall evs n5,
        run evs n4 = Some n5 -> responsesTo (k_res k2) (globals n5) = [].
Proof.
  intros Hreach Hr1 Hr2 Hid.
  pose proof (reachable_invariant n Hreach) as Hinv.
  destruct (fresh_response n Hinv) as [Hf Hnin].
  pose proof (correlationKey_same a1 a2 timestamp Hid) as Hkey.
  pose proof (step_afterConfirm n w1 alarmId timestamp a1 u1 subs1 Hr1) as H1.
  set (n1 := afterConfirm w1 a1 u1 subs1 timestamp n) in *.
  pose proof (step_afterConfirm n1 w2 alarmId timestamp a2 u2 subs2 Hr2) as H2.
  set (n2 := afterConfirm w2 a2 u2 subs2 timestamp n1) in *.
  set (t1 := dispatches w1 (confirmPrompt w1 a1 timestamp) subs1
               (List.length (pushed (globals n)))).
  set (t2 := dispatches w2 (confirmPrompt w2 a2 timestamp) subs2
               (List.length (pushed (globals n1)))).
  set (k1 := suspension (nextRes n) a1 timestamp subs1 t1).
  set (k2 := suspension (S (nextRes n)) a2 timestamp subs2 t2).
  set (e2 := pendingEntry (S (nextRes n)) a2 u2 subs2 t2).
  set (key := correlationKey a1 timestamp) in *.
  assert (Htimers2 : timers n2 = timers n ++ [k1; k2]).
  { unfold n2, n1. cbn [afterConfirm timers]. now rewrite <- app_assoc. }
  assert (Hget2 : Map.get key (alarmMap (globals n2)) = Some e2).
  { unfold n2. cbn [afterConfirm globals alarmMap with_alarmMap].
    rewrite <- Hkey. apply Map_get_set. }
  assert (Hsent2 : sent (globals n2) = sent (globals n)) by reflexivity.
  assert (Hf2 : headersSent (k_res k1) (globals n2) = false) by exact Hf.
  assert (Hnth1 : nth_error (timers n2) (List.length (timers n)) = Some k1)
    by (rewrite Htimers2; apply nth_error_middle).
  pose proof (step_timeout_present n2 _ k1 e2 Hnth1 Hget2 Hf2) as H3.
  rewrite Htimers2, remove_nth_middle in H3.
  set (n3 := {| globals :=
                  write (k_res k1) 200 (timeoutBody k1)
                    (with_alarmMap (Map.delete (k_key k1) (alarmMap (globals n2)))
                                   (globals n2));
                timers := timers n ++ [k2];
                nextRes := nextRes n2 |}) in *.
  assert (Hget3 : Map.get (k_key k2) (alarmMap (globals n3)) = None).
  { unfold n3. cbn [globals alarmMap write with_alarmMap].
    change (k_key k2) with (correlationKey a2 timestamp).
    rewrite <- Hkey. apply Map_get_delete. }
  assert (Hnth2 : nth_error (timers n3) (List.length (timers n)) = Some k2)
    by apply nth_error_middle.
  pose proof (step_timeout_absent n3 _ k2 Hnth2 Hget3) as H4.
  cbn [timers n3] in H4.
  replace (remove_nth (List.length (timers n)) (timers n ++ [k2]))
    with (timers n) in H4
    by (rewrite remove_nth_middle; now rewrite app_nil_r).
  set (n4 := {| globals := globals n3; timers := timers n;
                nextRes := nextRes n3 |}) in *.
  exists n2, k1, k2, e2, n3, n4.
  split; [cbn [run]; rewrite H1, H2; reflexivity|].
  do 7 (split; [first [exact Htimers2 | exact Hget2 | reflexivity]|]).
  split; [exact H3|]. split; [reflexivity|].
  split; [change (k_key k1) with key; rewrite Hkey; exact Hget3|].
  split; [exact Hnth2|]. split; [exact H4|].
  split; [reflexivity|]. split; [reflexivity|].
  intros evs n5 Hrun.
  pose proof (reachable_step _ _ _ Hreach H1) as Hreach1.
  pose proof (reachable_step _ _ _ Hreach1 H2) as Hreach2.
  pose proof (reachable_step _ _ _ Hreach2 H3) as Hreach3.
  pose proof (reachable_step _ _ _ Hreach3 H4) as Hreach4.
  apply responsesTo_unsent.
  refine (proj1 (proj2 (abandoned_run (k_res k2) evs n4 n5
                          (reachable_invariant _ Hreach4) _ Hrun))).
  split; [simpl; lia|]. split; [|split].
  - change (headersSent (S (nextRes n))
              (write (nextRes n) 200 (timeoutBody k1) (globals n)) = false).
    rewrite headersSent_write. apply orb_false_iff. split.
    + apply not_true_is_false. intros H.
      apply (inv_sent n Hinv) in H. lia.
    + apply Nat.eqb_neq. lia.
  - intros H. apply sinks_In in H. destruct H as [p [Hp Hres]].
    cbn [n4 n3 globals alarmMap write with_alarmMap] in Hp.
    apply In_delete in Hp. destruct Hp as [Hp Hne].
    change (k_key k1) with key in Hne.
    unfold n2, n1 in Hp. cbn [afterConfirm globals alarmMap with_alarmMap] in Hp.
    rewrite <- Hkey in Hp. fold key in Hp.
    apply In_set in Hp;
      [|apply NoDup_keys_set; exact (wf_keys _ (inv_wf n Hinv))].
    destruct Hp as [->|[Hp _]]; [now apply Hne|].
    apply In_set in Hp; [|exact (wf_keys _ (inv_wf n Hinv))].
    destruct Hp as [->|[Hp _]]; [now apply Hne|].
    apply (inv_map n Hinv) in Hp. simpl in Hres. lia.
  - simpl. intros H. apply in_map_iff in H. destruct H as [k [Hk Hin]].
    apply (inv_timers n Hinv) in Hin. lia.
Qed.

Lemma overwritten_request_unanswered_witness :
  exists n2 k1 k2 e2 n3 n4,
    run [GetConfirm Demo.store "1" 1700000000;
         GetConfirm Demo.store "1" 1700000000] boot
    = Some n2
    /\ timers n2 = timers boot ++ [k1; k2]
    /\ k_res k1 = nextRes boot
    /\ k_res k2 = S (nextRes boot)
    /\ k_location k1 = alarm_location Demo.alarm1
    /\ k_total k1 = List.length [Demo.device "phone"; Demo.device "laptop"]
    /\ Map.get (k_key k1) (alarmMap (globals n2)) = Some e2
    /\ e_res e2 = k_res k2
    /\ step (Timeout (List.length (timers boot))) n2 = Some n3
    /\ sent (globals n3)
       = sent (globals n2)
         ++ [(k_res k1,
              (200, Confirmation (JS.Str "null") (k_location k1) (k_total k1)
                      (k_successful k1) (k_errors k1)))]
    /\ Map.get (k_key k1) (alarmMap (globals n3)) = None
    /\ nth_error (timers n3) (List.length (timers boot)) = Some k2
    /\ step (Timeout (List.length (timers boot))) n3 = Some n4
    /\ globals n4 = globals n3
    /\ timers n4 = timers boot
    /\ forall evs n5,
        run evs n4 = Some n5 -> responsesTo (k_res k2) (globals n5) = [].
Proof.
  apply (overwritten_request_unanswered boot Demo.store Demo.store "1"
           1700000000 Demo.alarm1 Demo.alarm1 1 1
           [Demo.device "phone"; Demo.device "laptop"]
           [Demo.device "phone"; Demo.device "laptop"]).
  - exact reachable_boot.
  - exact resolves_demo.
  - exact resolves_demo.
  - reflexivity.
Defined.

(** The run of C9 on the sample store: request 0 is answered with its
    own counts (two devices, the second call failed), request 1 never. *)
Example overwrite_scenario :
  option_map (fun n => (sent (globals n), alarmMap (globals n), timers n))
    (run [GetConfirm Demo.store "1" 1700000000;
          GetConfirm Demo.store "1" 1700000000;
          Timeout 0; Timeout 0] boot)
  = Some ([(0%nat, (200, Confirmation (JS.Str "null") "Unknown" 2 1
                           [dispatchError]))],
          [], []).
Proof. reflexivity. Qed.

(** ** At most one completion *)

Lemma responsesTo_write r res code b st :
  responsesTo r (write res code b st)
  = responsesTo r st ++ (if (res =? r)%nat then [(code, b)] else []).
Proof.
  unfold responsesTo, write. simpl. rewrite filter_app, map_app. simpl.
  now destruct (res =? r)%nat.
Qed.

(** Two responses of the user while one entry is pending: the waiting
    request is answered once, by the first; the second only gets its
    200, and the timer then wakes to nothing. *)
Example double_response_scenario :
  option_map (fun n => (sent (globals n), alarmMap (globals n)))
    (run [GetConfirm Demo.store "1" 1700000000;
          GetResponse Demo.store "Blaze" (JS.Bool true);
          GetResponse Demo.store "Blaze" (JS.Bool false);
          Timeout 0] boot)
  = Some ([(0%nat, (200, Confirmation (JS.Bool true) "Unknown" 2 1
                           [dispatchError]));
           (1%nat, (200, Text "Response received"));
           (2%nat, (200, Text "Response received"))],
          []).
Proof. reflexivity. Qed.

(** ** The timeout path *)

(** After [confirmAlarm] for an alarm with a user and a subscription,
    the closure waits on a timer of 15000 ms; when that timer fires
    while the entry is still in the map, the entry is deleted and the
    waiting request receives the location and the counts of its own
    fan-out, with the string "null" in the field [confirmed]. *)
Lemma confirmAlarm_then_timeout (n : node) (w : world) (alarmId : string)
  (timestamp : Z) (alarm : alarm) (userId : Z)
  (dbSubscriptions : list subscription) :
  reachable n ->
  resolves w alarmId alarm userId dbSubscriptions ->
  exists n1 k t,
    step (GetConfirm w alarmId timestamp) n = Some n1
    /\ timers n1 = timers n ++ [k]
    /\ k_ms k = 15000
    /\ pushed (globals n1) = pushed (globals n) ++ t
    /\ map d_sub t = map toPushSubscription dbSubscriptions
    /\ forall evs n2 i,
        run evs n1 = Some n2 ->
        nth_error (timers n2) i = Some k ->
        In (correlationKey alarm timestamp,
            pendingEntry (nextRes n) alarm userId dbSubscriptions t)
           (alarmMap (globals n2)) ->
        exists n3,
          step (Timeout i) n2 = Some n3
          /\ responsesTo (nextRes n) (globals n3)
             = [(200, Confirmation (JS.Str "null") (alarm_location alarm)
                        (List.length dbSubscriptions)
                        (List.length dbSubscriptions - failures t)
                        (repeat dispatchError (failures t)))]
          /\ Map.get (correlationKey alarm timestamp) (alarmMap (globals n3))
             = None.
Proof.
  intros Hreach Hres.
  pose proof (step_afterConfirm n w alarmId timestamp alarm userId
                dbSubscriptions Hres) as Hstep.
  set (t := dispatches w (confirmPrompt w alarm timestamp) dbSubscriptions
              (List.length (pushed (globals n)))).
  set (k := suspension (nextRes n) alarm timestamp dbSubscriptions t).
  exists (afterConfirm w alarm userId dbSubscriptions timestamp n), k, t.
  split; [exact Hstep|]. split; [reflexivity|]. split; [reflexivity|].
  split; [reflexivity|]. split; [apply dispatches_subs|].
  intros evs n2 i Hrun Hk Hin.
  pose proof (reachable_step _ _ _ Hreach Hstep) as Hreach1.
  pose proof (reachable_invariant _ (reachable_run _ _ _ Hreach1 Hrun)) as Hinv2.
  pose proof (inv_wf _ Hinv2) as Hwf2.
  set (p := (correlationKey alarm timestamp,
             pendingEntry (nextRes n) alarm userId dbSubscriptions t)) in *.
  assert (Hget : Map.get (k_key k) (alarmMap (globals n2)) = Some (snd p))
    by (apply In_Map_get; [exact (wf_keys _ Hwf2) | exact Hin]).
  assert (Hf : headersSent (k_res k) (globals n2) = false)
    by exact (wf_unsent _ Hwf2 p Hin).
  rewrite (step_timeout_present n2 i k (snd p) Hk Hget Hf).
  eexists. split; [reflexivity|]. cbn [globals]. split.
  - rewrite responsesTo_write.
    change (k_res k) with (nextRes n). rewrite Nat.eqb_refl.
    replace (responsesTo (nextRes n) (with_alarmMap _ (globals n2)))
      with (responsesTo (nextRes n) (globals n2)) by reflexivity.
    now rewrite (responsesTo_unsent (nextRes n) _ Hf).
  - apply Map_get_delete.
Qed.

(** C3, at alarm "1" of the sample store with no response from the
    user: the timer is set to 15000 ms, and when it fires the entry is
    deleted and the request receives the location and the counts of its
    fan-out; the field [confirmed] of that body is the string "null",
    which is not the JSON value null. *)
Theorem timeout_sends_the_string_null :
  exists n1 n2 k,
    step (GetConfirm Demo.store "1" 1700000000) boot = Some n1
    /\ timers n1 = [k]
    /\ k_ms k = 15000
    /\ step (Timeout 0) n1 = Some n2
    /\ sent (globals n2)
       = [(0%nat, (200, Confirmation (JS.Str "null") "Unknown" 2 1
                          [dispatchError]))]
    /\ alarmMap (globals n2) = []
    /\ JS.Str "null" <> JS.Null.
Proof.
  do 3 eexists.
  split; [reflexivity|]. split; [reflexivity|]. split; [reflexivity|].
  split; [reflexivity|]. split; [reflexivity|]. split; [reflexivity|].
  discriminate.
Qed.

(** A duplicate that arrives after the first request was answered: when
    the first closure wakes it finds the entry of request 2, deletes it
    and throws on its own response object, already written; request 2 is
    left without an entry and without a response. *)
Example late_duplicate_scenario :
  option_map (fun n => (sent (globals n), alarmMap (globals n), timers n))
    (run [GetConfirm Demo.store "1" 1700000000;
          GetResponse Demo.store "Blaze" (JS.Bool false);
          GetConfirm Demo.store "1" 1700000000;
          Timeout 0; Timeout 0] boot)
  = Some ([(0%nat, (200, Confirmation (JS.Bool false) "Unknown" 2 1
                           [dispatchError]));
           (1%nat, (200, Text "Response received"))],
          [], []).
Proof. reflexivity. Qed.

(** * Further properties *)

(** ** The keys of alarmMap *)

Lemma digits_uint (d : uint) : digits (NilEmpty.string_of_uint d) = true.
Proof. induction d; simpl; auto. Qed.

Lemma digits_uint_zero (d : uint) :
  digits (NilZero.string_of_uint d) = true
  /\ NilZero.string_of_uint d <> EmptyString.
Proof.
  destruct d; simpl; (split; [try apply digits_uint; reflexivity | discriminate]).
Qed.

(** The decimal digits of an integer are an optional minus sign and at
    least one digit. *)
Lemma decimal_shape (z : Z) :
  exists u, digits u = true /\ u <> EmptyString
            /\ (JS.decimal z = u \/ JS.decimal z = String "-" u).
Proof.
  unfold JS.decimal, NilZero.string_of_int.
  destruct (Z.to_int z) as [d|d];
    exists (NilZero.string_of_uint d);
    destruct (digits_uint_zero d) as [Hd Hne]; auto.
Qed.

Lemma decimal_inj (a b : Z) : JS.decimal a = JS.decimal b -> a = b.
Proof.
  unfold JS.decimal. intros H.
  apply (f_equal NilZero.int_of_string) in H.
  rewrite !NilZero.isi in H.
  - injection H as H. now apply to_int_inj.
  - destruct b; simpl; try discriminate.
    intros [= Hb]. now apply Unsigned.to_uint_nonnil in Hb.
  - destruct b; simpl; try discriminate.
    intros [= Hb]. now apply Unsigned.to_uint_nonnil in Hb.
  - destruct a; simpl; try discriminate.
    intros [= Ha]. now apply Unsigned.to_uint_nonnil in Ha.
  - destruct a; simpl; try discriminate.
    intros [= Ha]. now apply Unsigned.to_uint_nonnil in Ha.
Qed.

(** Below 2^53 an integer is rendered by its own digits. *)
Lemma Number_toString_safe (z : Z) :
  Z.abs z < JS.two53 -> JS.Number_toString z = JS.decimal z.
Proof.
  intros H. unfold JS.Number_toString.
  apply Z.ltb_lt in H. now rewrite H.
Qed.

Lemma minus_not_digit : isDigit "-" = false.
Proof. reflexivity. Qed.

(** The first "-" after a run of digits is found at the same place in
    equal strings. *)
Lemma digits_split (u u' r r' : string) :
  digits u = true -> digits u' = true ->
  (u ++ String "-" r)%string = (u' ++ String "-" r')%string ->
  u = u' /\ r = r'.
Proof.
  revert u'. induction u as [|c u IH]; intros [|c' u'] Hu Hu' Heq;
    simpl in *.
  - injection Heq as ->. auto.
  - injection Heq as <- _. apply andb_true_iff in Hu'.
    destruct Hu' as [Hc _]. rewrite minus_not_digit in Hc. discriminate.
  - injection Heq as -> _. apply andb_true_iff in Hu.
    destruct Hu as [Hc _]. rewrite minus_not_digit in Hc. discriminate.
  - injection Heq as -> Heq.
    apply andb_true_iff in Hu. apply andb_true_iff in Hu'.
    destruct (IH u' (proj2 Hu) (proj2 Hu') Heq) as [-> ->]. auto.
Qed.

Lemma digits_head (u : string) :
  digits u = true -> u <> EmptyString ->
  exists c r, u = String c r /\ isDigit c = true.
Proof.
  destruct u as [|c r]; [contradiction|].
  simpl. intros H _. apply andb_true_iff in H. exists c, r. tauto.
Qed.

Lemma decimal_pair_inj (i1 i2 t1 t2 : Z) :
  (JS.decimal i1 ++ "-" ++ JS.decimal t1)%string
  = (JS.decimal i2 ++ "-" ++ JS.decimal t2)%string ->
  i1 = i2 /\ t1 = t2.
Proof.
  intros Heq.
  destruct (decimal_shape i1) as (u1 & Hd1 & Hn1 & Hs1).
  destruct (decimal_shape i2) as (u2 & Hd2 & Hn2 & Hs2).
  assert (Hboth : JS.decimal i1 = JS.decimal i2
                  /\ JS.decimal t1 = JS.decimal t2).
  { destruct (digits_head u1 Hd1 Hn1) as (c1 & r1 & Hu1 & Hc1).
    destruct (digits_head u2 Hd2 Hn2) as (c2 & r2 & Hu2 & Hc2).
    destruct Hs1 as [Hs1|Hs1]; destruct Hs2 as [Hs2|Hs2];
      rewrite Hs1, Hs2 in *; simpl in Heq.
    - destruct (digits_split _ _ _ _ Hd1 Hd2 Heq) as [-> ->]. auto.
    - rewrite Hu1 in Heq. simpl in Heq. injection Heq as -> _.
      rewrite minus_not_digit in Hc1. discriminate.
    - rewrite Hu2 in Heq. simpl in Heq. injection Heq as <- _.
      rewrite minus_not_digit in Hc2. discriminate.
    - injection Heq as Heq.
      destruct (digits_split _ _ _ _ Hd1 Hd2 Heq) as [-> ->]. auto. }
  destruct Hboth as [Hid Hts].
  split; now apply decimal_inj.
Qed.

Lemma key_determines_pair (a1 a2 : alarm) (t1 t2 : Z) :
  Z.abs (alarm_id a1) < JS.two53 -> Z.abs (alarm_id a2) < JS.two53 ->
  Z.abs t1 < JS.two53 -> Z.abs t2 < JS.two53 ->
  correlationKey a1 t1 = correlationKey a2 t2 ->
  alarm_id a1 = alarm_id a2 /\ t1 = t2.
Proof.
  intros Ha1 Ha2 Ht1 Ht2. unfold correlationKey.
  rewrite !Number_toString_safe by assumption.
  apply decimal_pair_inj.
Qed.

(** X1: as long as the alarm ids and the timestamps are below 2^53 in
    absolute value, the key [`${alarm.id}-${timeStamp}`] determines both:
    two confirmations share a key exactly when both agree.  (Beyond 2^53
    a number is rounded to a double before it is rendered, and distinct
    integers can share their digits.) *)
Theorem correlationKey_inj (a1 a2 : alarm) (t1 t2 : Z) :
  Z.abs (alarm_id a1) < JS.two53 -> Z.abs (alarm_id a2) < JS.two53 ->
  Z.abs t1 < JS.two53 -> Z.abs t2 < JS.two53 ->
  (correlationKey a1 t1 = correlationKey a2 t2
   <-> alarm_id a1 = alarm_id a2 /\ t1 = t2).
Proof.
  intros Ha1 Ha2 Ht1 Ht2.
  split; [now apply key_determines_pair|].
  intros [Hid ->]. now apply correlationKey_same.
Qed.

Lemma correlationKey_inj_witness :
  correlationKey Demo.alarm1 1700000000 = correlationKey Demo.alarm1 1700000060
  <-> alarm_id Demo.alarm1 = alarm_id Demo.alarm1 /\ 1700000000 = 1700000060.
Proof.
  apply (correlationKey_inj Demo.alarm1 Demo.alarm1 1700000000 1700000060);
    reflexivity.
Defined.

(** The rendering beyond 2^53: rounded, shortest digits, zeros up to 21
    digits and exponent notation after. *)
Example Number_toString_beyond :
  map JS.Number_toString
    [2 ^ 53 + 1; 2 ^ 53 + 3; 2 ^ 63; 2 ^ 69; 10 ^ 21; 2 ^ 70; 10 ^ 23;
     - 2 ^ 70; 2 ^ 1024]
  = ["9007199254740992"; "9007199254740996"; "9223372036854776000";
     "590295810358705700000"; "1e+21"; "1.1805916207174113e+21"; "1e+23";
     "-1.1805916207174113e+21"; "Infinity"]%string.
Proof. now vm_compute. Qed.

(** ** Confirmations under different keys *)

Lemma Map_get_set_other key key' v m :
  key <> key' -> Map.get key (Map.set key' v m) = Map.get key m.
Proof.
  intros Hne. unfold Map.get. induction m as [|[k x] m IH]; simpl.
  - destruct (String.eqb_spec key' key); [congruence | reflexivity].
  - destruct (String.eqb_spec k key') as [->|Hk]; simpl.
    + destruct (String.eqb_spec key' key); [congruence | reflexivity].
    + destruct (String.eqb_spec k key); [reflexivity | exact IH].
Qed.

Lemma Map_get_delete_other key key' m :
  key <> key' -> Map.get key (Map.delete key' m) = Map.get key m.
Proof.
  intros Hne. unfold Map.get, Map.delete.
  induction m as [|[k x] m IH]; simpl; [reflexivity|].
  destruct (String.eqb_spec k key') as [->|Hk]; simpl.
  - destruct (String.eqb_spec key' key); [congruence | exact IH].
  - destruct (String.eqb_spec k key); [reflexivity | exact IH].
Qed.

Lemma responsesTo_with_alarmMap r m st :
  responsesTo r (with_alarmMap m st) = responsesTo r st.
Proof. reflexivity. Qed.

(** X2: two confirmations that differ in the alarm id or in the
    timestamp, all below 2^53 in absolute value, do not meet in the map:
    after the second, the entry of the
    first is still there, and when the two timers fire each request
    receives the timeout body built from its own fan-out. *)
Theorem distinct_confirmations_coexist (n : node) (w1 w2 : world)
  (alarmId1 alarmId2 : string) (t1 t2 : Z) (a1 a2 : alarm) (u1 u2 : Z)
  (subs1 subs2 : list subscription) :
  reachable n ->
  resolves w1 alarmId1 a1 u1 subs1 ->
  resolves w2 alarmId2 a2 u2 subs2 ->
  Z.abs (alarm_id a1) < JS.two53 -> Z.abs (alarm_id a2) < JS.two53 ->
  Z.abs t1 < JS.two53 -> Z.abs t2 < JS.two53 ->
  alarm_id a1 <> alarm_id a2 \/ t1 <> t2 ->
  exists n1 n2 e1 e2 k1 k2 n4,
    step (GetConfirm w1 alarmId1 t1) n = Some n1
    /\ step (GetConfirm w2 alarmId2 t2) n1 = Some n2
    /\ Map.get (correlationKey a1 t1) (alarmMap (globals n1)) = Some e1
    /\ Map.get (correlationKey a1 t1) (alarmMap (globals n2)) = Some e1
    /\ e_res e1 = nextRes n
    /\ Map.get (correlationKey a2 t2) (alarmMap (globals n2)) = Some e2
    /\ e_res e2 = nextRes n1
    /\ timers n2 = timers n ++ [k1; k2]
    /\ k_location k1 = alarm_location a1
    /\ k_total k1 = List.length subs1
    /\ k_location k2 = alarm_location a2
    /\ k_total k2 = List.length subs2
    /\ run [Timeout (List.length (timers n)); Timeout (List.length (timers n))]
           n2
       = Some n4
    /\ responsesTo (nextRes n) (globals n4) = [(200, timeoutBody k1)]
    /\ responsesTo (nextRes n1) (globals n4) = [(200, timeoutBody k2)]
    /\ Map.get (correlationKey a1 t1) (alarmMap (globals n4)) = None
    /\ Map.get (correlationKey a2 t2) (alarmMap (globals n4)) = None.
Proof.
  intros Hreach Hr1 Hr2 Hs1 Hs2 Hs3 Hs4 Hdiff.
  pose proof (reachable_invariant n Hreach) as Hinv.
  destruct (fresh_response n Hinv) as [Hf Hnin].
  assert (Hkeys : correlationKey a1 t1 <> correlationKey a2 t2).
  { intros Heq. apply key_determines_pair in Heq; auto. tauto. }
  pose proof (step_afterConfirm n w1 alarmId1 t1 a1 u1 subs1 Hr1) as H1.
  set (n1 := afterConfirm w1 a1 u1 subs1 t1 n) in *.
  pose proof (step_afterConfirm n1 w2 alarmId2 t2 a2 u2 subs2 Hr2) as H2.
  set (n2 := afterConfirm w2 a2 u2 subs2 t2 n1) in *.
  pose proof (reachable_step _ _ _ Hreach H1) as Hreach1.
  pose proof (reachable_invariant _ Hreach1) as Hinv1.
  destruct (fresh_response n1 Hinv1) as [Hf1 _].
  set (tr1 := dispatches w1 (confirmPrompt w1 a1 t1) subs1
                (List.length (pushed (globals n)))).
  set (tr2 := dispatches w2 (confirmPrompt w2 a2 t2) subs2
                (List.length (pushed (globals n1)))).
  set (k1 := suspension (nextRes n) a1 t1 subs1 tr1).
  set (k2 := suspension (S (nextRes n)) a2 t2 subs2 tr2).
  set (e1 := pendingEntry (nextRes n) a1 u1 subs1 tr1).
  set (e2 := pendingEntry (S (nextRes n)) a2 u2 subs2 tr2).
  set (key1 := correlationKey a1 t1) in *.
  set (key2 := correlationKey a2 t2) in *.
  assert (Hget1 : Map.get key1 (alarmMap (globals n1)) = Some e1)
    by apply Map_get_set.
  assert (Hget12 : Map.get key1 (alarmMap (globals n2)) = Some e1).
  { unfold n2. cbn [afterConfirm globals alarmMap with_alarmMap].
    fold key2. now rewrite Map_get_set_other. }
  assert (Hget22 : Map.get key2 (alarmMap (globals n2)) = Some e2)
    by apply Map_get_set.
  assert (Htimers2 : timers n2 = timers n ++ [k1; k2]).
  { unfold n2, n1. cbn [afterConfirm timers]. now rewrite <- app_assoc. }
  assert (Hnth1 : nth_error (timers n2) (List.length (timers n)) = Some k1)
    by (rewrite Htimers2; apply nth_error_middle).
  assert (Hf12 : headersSent (k_res k1) (globals n2) = false) by exact Hf.
  pose proof (step_timeout_present n2 _ k1 e1 Hnth1 Hget12 Hf12) as H3.
  rewrite Htimers2, remove_nth_middle in H3.
  set (n3 := {| globals :=
                  write (k_res k1) 200 (timeoutBody k1)
                    (with_alarmMap (Map.delete (k_key k1) (alarmMap (globals n2)))
                                   (globals n2));
                timers := timers n ++ [k2];
                nextRes := nextRes n2 |}) in *.
  assert (Hnth2 : nth_error (timers n3) (List.length (timers n)) = Some k2)
    by apply nth_error_middle.
  assert (Hget23 : Map.get (k_key k2) (alarmMap (globals n3)) = Some e2).
  { unfold n3. cbn [globals alarmMap write with_alarmMap].
    change (k_key k2) with key2. change (k_key k1) with key1.
    rewrite Map_get_delete_other by congruence. exact Hget22. }
  assert (Hf23 : headersSent (k_res k2) (globals n3) = false).
  { unfold n3. cbn [globals]. rewrite headersSent_write.
    apply orb_false_iff. split; [exact Hf1|].
    apply Nat.eqb_neq. simpl. lia. }
  pose proof (step_timeout_present n3 _ k2 e2 Hnth2 Hget23 Hf23) as H4.
  exists n1, n2, e1, e2, k1, k2. eexists.
  split; [exact H1|]. split; [exact H2|]. split; [exact Hget1|].
  split; [exact Hget12|]. split; [reflexivity|]. split; [exact Hget22|].
  split; [reflexivity|]. split; [exact Htimers2|].
  do 4 (split; [reflexivity|]).
  split; [cbn [run]; rewrite H3, H4; reflexivity|].
  cbn [globals].
  assert (Hnone : responsesTo (nextRes n) (globals n2) = [])
    by (apply responsesTo_unsent; exact Hf).
  assert (Hnone1 : responsesTo (nextRes n1) (globals n2) = [])
    by (apply responsesTo_unsent; exact Hf1).
  split; [|split; [|split]].
  - rewrite responsesTo_write, responsesTo_with_alarmMap.
    unfold n3. cbn [globals].
    rewrite responsesTo_write, responsesTo_with_alarmMap, Hnone.
    change (k_res k1) with (nextRes n). change (k_res k2) with (S (nextRes n)).
    rewrite Nat.eqb_refl.
    replace (S (nextRes n) =? nextRes n)%nat with false
      by (symmetry; apply Nat.eqb_neq; lia).
    reflexivity.
  - rewrite responsesTo_write, responsesTo_with_alarmMap.
    unfold n3. cbn [globals].
    rewrite responsesTo_write, responsesTo_with_alarmMap, Hnone1.
    change (k_res k1) with (nextRes n). change (k_res k2) with (S (nextRes n)).
    change (nextRes n1) with (S (nextRes n)).
    rewrite Nat.eqb_refl.
    replace (nextRes n =? S (nextRes n))%nat with false
      by (symmetry; apply Nat.eqb_neq; lia).
    reflexivity.
  - cbn [alarmMap write with_alarmMap].
    change (k_key k2) with key2.
    rewrite Map_get_delete_other by congruence.
    unfold n3. cbn [globals alarmMap write with_alarmMap].
    apply Map_get_delete.
  - cbn [alarmMap write with_alarmMap]. apply Map_get_delete.
Qed.

Lemma distinct_confirmations_coexist_witness :
  exists n1 n2 e1 e2 k1 k2 n4,
    step (GetConfirm Demo.store "1" 1700000000) boot = Some n1
    /\ step (GetConfirm Demo.store "1" 1700000060) n1 = Some n2
    /\ Map.get (correlationKey Demo.alarm1 1700000000) (alarmMap (globals n1))
       = Some e1
    /\ Map.get (correlationKey Demo.alarm1 1700000000) (alarmMap (globals n2))
       = Some e1
    /\ e_res e1 = nextRes boot
    /\ Map.get (correlationKey Demo.alarm1 1700000060) (alarmMap (globals n2))
       = Some e2
    /\ e_res e2 = nextRes n1
    /\ timers n2 = timers boot ++ [k1; k2]
    /\ k_location k1 = alarm_location Demo.alarm1
    /\ k_total k1 = List.length [Demo.device "phone"; Demo.device "laptop"]
    /\ k_location k2 = alarm_location Demo.alarm1
    /\ k_total k2 = List.length [Demo.device "phone"; Demo.device "laptop"]
    /\ run [Timeout (List.length (timers boot));
            Timeout (List.length (timers boot))] n2
       = Some n4
    /\ responsesTo (nextRes boot) (globals n4) = [(200, timeoutBody k1)]
    /\ responsesTo (nextRes n1) (globals n4) = [(200, timeoutBody k2)]
    /\ Map.get (correlationKey Demo.alarm1 1700000000) (alarmMap (globals n4))
       = None
    /\ Map.get (correlationKey Demo.alarm1 1700000060) (alarmMap (globals n4))
       = None.
Proof.
  apply (distinct_confirmations_coexist boot Demo.store Demo.store "1" "1"
           1700000000 1700000060 Demo.alarm1 Demo.alarm1 1 1
           [Demo.device "phone"; Demo.device "laptop"]
           [Demo.device "phone"; Demo.device "laptop"]).
  - exact reachable_boot.
  - exact resolves_demo.
  - exact resolves_demo.
  - reflexivity.
  - reflexivity.
  - reflexivity.
  - reflexivity.
  - right. discriminate.
Defined.

(** ** Failing queries *)

(** X3: when the query for the alarm rejects, or the query for the
    subscriptions of its user does, [confirmAlarm] answers 500 "Unknown
    error occurred" and returns: no call to the push service, no entry in
    the map, no closure left waiting. *)
Theorem confirmAlarm_store_failure (w : world) (alarmId : string)
  (timeStamp : Z) (res : nat) (st : state) :
  headersSent res st = false ->
  alarm_findAll w alarmId = None
  \/ (exists alarm others userId,
         alarm_findAll w alarmId = Some (alarm :: others)
         /\ alarm_userId alarm = Some userId
         /\ userId <> 0
         /\ subscription_findAll_where w userId = None) ->
  exists st',
    confirmAlarm w alarmId timeStamp res st = (Normal None, st')
    /\ sent st' = sent st ++ [(res, (500, Error "Unknown error occurred"))]
    /\ pushed st' = pushed st
    /\ alarmMap st' = alarmMap st.
Proof.
  intros Hfresh H.
  exists (write res 500 (Error "Unknown error occurred") st).
  split; [|auto].
  unfold confirmAlarm, confirmAlarm_lookup, try_catch, bind, query, res_send.
  destruct H as [Ha | (alarm & others & u & Ha & Hu & Hnz & Hs)]; rewrite Ha.
  - now rewrite Hfresh.
  - rewrite Hu. apply Z.eqb_neq in Hnz. now rewrite Hnz, Hs, Hfresh.
Qed.

Lemma confirmAlarm_store_failure_witness :
  exists st',
    confirmAlarm
      {| alarm_findAll := fun _ => None;
         subscription_findAll_where := fun _ => None;
         subscription_findAll := None;
         user_findOne := fun _ => None;
         sendNotification := fun _ _ _ => true;
         localTZA := fun _ => 0 |}
      "1" 1700000000 0 (globals boot)
    = (Normal None, st')
    /\ sent st'
       = sent (globals boot) ++ [(0%nat, (500, Error "Unknown error occurred"))]
    /\ pushed st' = pushed (globals boot)
    /\ alarmMap st' = alarmMap (globals boot).
Proof.
  apply confirmAlarm_store_failure.
  - reflexivity.
  - left. reflexivity.
Defined.

Lemma fresh_request_abandoned n st' :
  invariant n ->
  headersSent (nextRes n) st' = false ->
  alarmMap st' = alarmMap (globals n) ->
  abandoned (nextRes n)
    {| globals := st'; timers := timers n; nextRes := S (nextRes n) |}.
Proof.
  intros Hinv Hunsent Hmap.
  destruct (fresh_response n Hinv) as [_ Hnin].
  split; [simpl; lia|]. split; [exact Hunsent|]. split.
  - cbn [globals]. now rewrite Hmap.
  - cbn [timers]. intros H. apply in_map_iff in H.
    destruct H as [k [Hk Hin]]. apply (inv_timers n Hinv) in Hin. lia.
Qed.

(** X4: when the store has no row for the authenticated user,
    [logResponse] throws on [db_user.id] before its [try]: the map is
    left as it was, nothing is written, and no later step of the server
    ever answers that request. *)
Theorem logResponse_unknown_user (n : node) (w : world) (username : string)
  (confirmed : JS.value) :
  reachable n ->
  user_findOne w username = None ->
  logResponse w username confirmed (nextRes n) (globals n)
  = (Throw, globals n)
  /\ exists n',
      step (GetResponse w username confirmed) n = Some n'
      /\ globals n' = globals n
      /\ forall evs n'',
          run evs n' = Some n'' ->
          responsesTo (nextRes n) (globals n'') = [].
Proof.
  intros Hreach Hu.
  pose proof (reachable_invariant n Hreach) as Hinv.
  destruct (fresh_response n Hinv) as [Hf _].
  assert (Hlog : logResponse w username confirmed (nextRes n) (globals n)
                 = (Throw, globals n))
    by (unfold logResponse, bind, query; now rewrite Hu).
  split; [exact Hlog|].
  assert (Hstep : step (GetResponse w username confirmed) n
                  = Some {| globals := globals n; timers := timers n;
                            nextRes := S (nextRes n) |})
    by (unfold step; now rewrite Hlog).
  eexists. split; [exact Hstep|]. split; [reflexivity|].
  intros evs n'' Hrun. apply responsesTo_unsent.
  refine (proj1 (proj2 (abandoned_run (nextRes n) evs _ n''
                          (reachable_invariant _
                             (reachable_step _ _ _ Hreach Hstep))
                          _ Hrun))).
  now apply fresh_request_abandoned.
Qed.

Lemma logResponse_unknown_user_witness :
  logResponse Demo.store "nobody" (JS.Bool true) (nextRes Demo.waiting)
    (globals Demo.waiting)
  = (Throw, globals Demo.waiting)
  /\ exists n',
      step (GetResponse Demo.store "nobody" (JS.Bool true)) Demo.waiting
      = Some n'
      /\ globals n' = globals Demo.waiting
      /\ forall evs n'',
          run evs n' = Some n'' ->
          responsesTo (nextRes Demo.waiting) (globals n'') = [].
Proof.
  apply (logResponse_unknown_user Demo.waiting Demo.store "nobody"
           (JS.Bool true)).
  - exact reachable_waiting.
  - reflexivity.
Defined.

(** X5: when the query for the subscriptions rejects, [notifyAllUsers]
    throws before anything else: no call to the push service, nothing
    written, and the request is never answered. *)
Theorem notifyAllUsers_store_failure (n : node) (w : world)
  (payload : notification) :
  reachable n ->
  subscription_findAll w = None ->
  exists n',
    step (PostNotify w payload) n = Some n'
    /\ globals n' = globals n
    /\ forall evs n'',
        run evs n' = Some n'' ->
        responsesTo (nextRes n) (globals n'') = [].
Proof.
  intros Hreach Hq.
  pose proof (reachable_invariant n Hreach) as Hinv.
  destruct (fresh_response n Hinv) as [Hf _].
  assert (Hstep : step (PostNotify w payload) n
                  = Some {| globals := globals n; timers := timers n;
                            nextRes := S (nextRes n) |})
    by (unfold step, notifyAllUsers, bind, query; now rewrite Hq).
  eexists. split; [exact Hstep|]. split; [reflexivity|].
  intros evs n'' Hrun. apply responsesTo_unsent.
  refine (proj1 (proj2 (abandoned_run (nextRes n) evs _ n''
                          (reachable_invariant _
                             (reachable_step _ _ _ Hreach Hstep))
                          _ Hrun))).
  now apply fresh_request_abandoned.
Qed.

Lemma notifyAllUsers_store_failure_witness :
  exists n',
    step (PostNotify
            {| alarm_findAll := fun _ => None;
               subscription_findAll_where := fun _ => None;
               subscription_findAll := None;
               user_findOne := fun _ => None;
               sendNotification := fun _ _ _ => true;
               localTZA := fun _ => 0 |}
            Demo.alert) Demo.waiting
    = Some n'
    /\ globals n' = globals Demo.waiting
    /\ forall evs n'',
        run evs n' = Some n'' ->
        responsesTo (nextRes Demo.waiting) (globals n'') = [].
Proof.
  apply notifyAllUsers_store_failure.
  - exact reachable_waiting.
  - reflexivity.
Defined.

(** ** What logResponse writes *)

(** X6: whatever the map holds, a step of [logResponse] writes only
    responses with status 200: confirmations carrying the value of
    [confirmed] it was given, and "Response received" to its own
    request.  The 500 of its [catch] is never sent. *)
Theorem logResponse_only_200 (n n' : node) (w : world) (username : string)
  (confirmed : JS.value) :
  reachable n ->
  step (GetResponse w username confirmed) n = Some n' ->
  exists new,
    sent (globals n') = sent (globals n) ++ new
    /\ Forall
         (fun x =>
            (exists location total successful errors,
                snd x = (200, Confirmation confirmed location total
                                successful errors))
            \/ x = (nextRes n, (200, Text "Response received")))
         new.
Proof.
  intros Hreach Hstep.
  pose proof (reachable_invariant n Hreach) as Hinv.
  destruct (user_findOne w username) as [db_user|] eqn:Hu.
  - rewrite (step_response n w username confirmed db_user Hinv Hu) in Hstep.
    injection Hstep as <-. cbn [globals answered sent].
    eexists. split; [now rewrite <- app_assoc|].
    apply Forall_app. split.
    + apply Forall_forall. intros x Hx. apply in_map_iff in Hx.
      destruct Hx as [p [<- _]]. left. unfold reply. simpl. eauto.
    + constructor; [now right | constructor].
  - unfold step, logResponse, bind, query in Hstep. rewrite Hu in Hstep.
    injection Hstep as <-. exists []. split; [now rewrite app_nil_r|].
    constructor.
Qed.

Lemma logResponse_only_200_witness :
  exists new,
    sent (globals
            {| globals := answered 1 (JS.Bool true) (nextRes Demo.waiting)
                            (globals Demo.waiting);
               timers := timers Demo.waiting;
               nextRes := S (nextRes Demo.waiting) |})
    = sent (globals Demo.waiting) ++ new
    /\ Forall
         (fun x =>
            (exists location total successful errors,
                snd x = (200, Confirmation (JS.Bool true) location total
                                successful errors))
            \/ x = (nextRes Demo.waiting, (200, Text "Response received")))
         new.
Proof.
  apply (logResponse_only_200 Demo.waiting _ Demo.store "Blaze" (JS.Bool true)).
  - exact reachable_waiting.
  - reflexivity.
Defined.

(** ** Entries and their timers *)



(** Every way through [confirmAlarm] on a fresh response object, with
    what the store gave in the second. *)
Lemma confirmAlarm_resolves w alarmId timeStamp res st :
  headersSent res st = false ->
  (exists code msg,
      (code = 404 \/ code = 500)
      /\ confirmAlarm w alarmId timeStamp res st
         = (Normal None, write res code (Error msg) st))
  \/ (exists alarm userId dbSubscriptions,
         resolves w alarmId alarm userId dbSubscriptions).
Proof.
  intros Hfresh.
  destruct (alarm_findAll w alarmId) as [[|alarm others]|] eqn:Ha.
  1, 3: left; answered_by Hfresh ltac:(rewrite Ha).
  destruct (alarm_userId alarm) as [userId|] eqn:Hu.
  2: left; answered_by Hfresh ltac:(rewrite Ha, Hu).
  destruct (Z.eqb_spec userId 0) as [Hz|Hnz].
  1: left; answered_by Hfresh ltac:(rewrite Ha, Hu; subst userId).
  pose proof Hnz as Hnz'. apply Z.eqb_neq in Hnz'.
  destruct (subscription_findAll_where w userId) as [[|s rest]|] eqn:Hs.
  1, 3: left; answered_by Hfresh ltac:(rewrite Ha, Hu, Hnz', Hs).
  right. exists alarm, userId, (s :: rest).
  repeat split; auto; [now exists others | discriminate].
Qed.

Lemma step_confirm_cases n w alarmId timestamp n' :
  invariant n ->
  step (GetConfirm w alarmId timestamp) n = Some n' ->
  (exists code msg,
      n' = {| globals := write (nextRes n) code (Error msg) (globals n);
              timers := timers n; nextRes := S (nextRes n) |})
  \/ (exists alarm userId dbSubscriptions,
         resolves w alarmId alarm userId dbSubscriptions
         /\ n' = afterConfirm w alarm userId dbSubscriptions timestamp n).
Proof.
  intros Hinv Hstep.
  destruct (fresh_response n Hinv) as [Hf _].
  destruct (confirmAlarm_resolves w alarmId timestamp (nextRes n) (globals n) Hf)
    as [(code & msg & _ & Heq) | (alarm & u & subs & Hres)].
  - left. exists code, msg. unfold step in Hstep. rewrite Heq in Hstep.
    now injection Hstep as <-.
  - right. exists alarm, u, subs. split; [exact Hres|].
    rewrite (step_afterConfirm n w alarmId timestamp alarm u subs Hres) in Hstep.
    now injection Hstep as <-.
Qed.

Lemma step_response_cases n w username confirmed n' :
  invariant n ->
  step (GetResponse w username confirmed) n = Some n' ->
  n' = {| globals := globals n; timers := timers n; nextRes := S (nextRes n) |}
  \/ exists db_user,
      n' = {| globals := answered (user_id db_user) confirmed (nextRes n)
                                  (globals n);
              timers := timers n; nextRes := S (nextRes n) |}.
Proof.
  intros Hinv Hstep.
  destruct (user_findOne w username) as [db_user|] eqn:Hu.
  - right. exists db_user.
    rewrite (step_response n w username confirmed db_user Hinv Hu) in Hstep.
    now injection Hstep as <-.
  - left. unfold step, logResponse, bind, query in Hstep. rewrite Hu in Hstep.
    now injection Hstep as <-.
Qed.

Lemma step_notify_cases n w payload n' :
  invariant n ->
  step (PostNotify w payload) n = Some n' ->
  n' = {| globals := globals n; timers := timers n; nextRes := S (nextRes n) |}
  \/ exists dbSubscriptions,
      let t := dispatches w payload dbSubscriptions
                 (List.length (pushed (globals n))) in
      n' = {| globals :=
                write (nextRes n) 200
                  (Counts (List.length dbSubscriptions)
                          (List.length dbSubscriptions - failures t)
                          (repeat dispatchError (failures t)))
                  (with_pushed (pushed (globals n) ++ t) (globals n));
              timers := timers n; nextRes := S (nextRes n) |}.
Proof.
  intros Hinv Hstep. unfold step in Hstep.
  destruct (fresh_response n Hinv) as [Hf _].
  destruct (subscription_findAll w) as [subs|] eqn:Hq.
  - right. exists subs.
    rewrite (notifyAllUsers_spec w payload _ _ subs Hq Hf) in Hstep.
    now injection Hstep as <-.
  - left. unfold notifyAllUsers, bind, query in Hstep. rewrite Hq in Hstep.
    now injection Hstep as <-.
Qed.

Lemma step_timeout_cases n i n' :
  step (Timeout i) n = Some n' ->
  exists k,
    nth_error (timers n) i = Some k
    /\ ((Map.get (k_key k) (alarmMap (globals n)) = None
         /\ n' = {| globals := globals n; timers := remove_nth i (timers n);
                    nextRes := nextRes n |})
        \/ (n' = {| globals :=
                      with_alarmMap
                        (Map.delete (k_key k) (alarmMap (globals n)))
                        (globals n);
                    timers := remove_nth i (timers n);
                    nextRes := nextRes n |})
        \/ (n' = {| globals :=
                      write (k_res k) 200 (timeoutBody k)
                        (with_alarmMap
                           (Map.delete (k_key k) (alarmMap (globals n)))
                           (globals n));
                    timers := remove_nth i (timers n);
                    nextRes := nextRes n |})).
Proof.
  unfold step. destruct (nth_error (timers n) i) as [k|]; [|discriminate].
  rewrite confirmAlarm_wake_cases. intros Hstep. exists k. split; [reflexivity|].
  destruct (Map.get (k_key k) (alarmMap (globals n))) as [e|].
  - cbv zeta in Hstep.
    destruct (headersSent (k_res k) (globals n)); injection Hstep as <-; auto.
  - injection Hstep as <-. auto.
Qed.





(** ** Counts in the responses *)

Lemma failures_bound w payload dbSubscriptions i :
  (failures (dispatches w payload dbSubscriptions i)
   <= List.length dbSubscriptions)%nat.
Proof.
  pose proof (successes_failures (dispatches w payload dbSubscriptions i)) as H.
  rewrite dispatches_length in H. lia.
Qed.

Lemma counts_fit w payload dbSubscriptions i :
  let t := dispatches w payload dbSubscriptions i in
  (List.length dbSubscriptions - failures t
   + List.length (repeat dispatchError (failures t))
   = List.length dbSubscriptions)%nat.
Proof.
  intros t. rewrite repeat_length.
  pose proof (failures_bound w payload dbSubscriptions i). fold t in H. lia.
Qed.

Lemma nonempty_length {A} (l : list A) : l <> [] -> (1 <= List.length l)%nat.
Proof. destruct l; [contradiction | simpl; lia]. Qed.

Lemma sound_step ev n n' :
  invariant n -> sound n -> step ev n = Some n' -> sound n'.
Proof.
  intros Hinv (Hmap & Htimers & Hsent) Hstep.
  destruct ev as [w alarmId timestamp | w username confirmed | w payload | i].
  - destruct (step_confirm_cases n w alarmId timestamp n' Hinv Hstep)
      as [(code & msg & ->) | (alarm & u & subs & Hres & ->)].
    + split; [exact Hmap|]. split; [exact Htimers|].
      intros x Hx. cbn [globals write sent] in Hx.
      apply in_app_or in Hx. destruct Hx as [Hx|[<-|[]]]; [auto | exact I].
    + assert (Hlen : (1 <= List.length subs)%nat)
        by (apply nonempty_length; apply Hres).
      split; [|split; [|exact Hsent]].
      * intros p Hp.
        cbn [afterConfirm globals alarmMap with_alarmMap] in Hp.
        apply In_set in Hp; [|exact (wf_keys _ (inv_wf n Hinv))].
        destruct Hp as [->|[Hp _]]; [|auto].
        split; [apply counts_fit | exact Hlen].
      * intros k Hk. cbn [afterConfirm timers] in Hk.
        apply in_app_or in Hk. destruct Hk as [Hk|[<-|[]]]; [auto|].
        split; [apply counts_fit | exact Hlen].
  - destruct (step_response_cases n w username confirmed n' Hinv Hstep)
      as [-> | [db_user ->]];
      [exact (conj Hmap (conj Htimers Hsent))|].
    split; [|split; [exact Htimers|]].
    + intros p Hp. cbn [globals answered alarmMap] in Hp.
      apply filter_In in Hp. now apply Hmap.
    + intros x Hx. cbn [globals answered sent] in Hx.
      apply in_app_or in Hx. destruct Hx as [Hx|[<-|[]]]; [|exact I].
      apply in_app_or in Hx. destruct Hx as [Hx|Hx]; [auto|].
      apply in_map_iff in Hx. destruct Hx as [p [<- Hp]].
      apply filter_In in Hp. simpl. now apply Hmap.
  - destruct (step_notify_cases n w payload n' Hinv Hstep)
      as [-> | [subs ->]];
      [exact (conj Hmap (conj Htimers Hsent))|].
    split; [exact Hmap|]. split; [exact Htimers|].
    intros x Hx. cbn [globals write sent with_pushed] in Hx.
    apply in_app_or in Hx. destruct Hx as [Hx|[<-|[]]]; [auto|].
    apply counts_fit.
  - destruct (step_timeout_cases n i n' Hstep) as (k0 & Hnth & Hcases).
    assert (Htimers' : forall k, In k (remove_nth i (timers n)) ->
                (k_successful k + List.length (k_errors k) = k_total k)%nat
                /\ (1 <= k_total k)%nat)
      by (intros k Hk; apply Htimers; now apply In_remove_nth in Hk).
    destruct Hcases as [[_ ->] | [-> | ->]];
      (split; [|split; [exact Htimers'|]]);
      cbn [globals alarmMap write with_alarmMap sent]; auto.
    + intros p Hp. apply In_delete in Hp. now apply Hmap.
    + intros p Hp. apply In_delete in Hp. now apply Hmap.
    + intros x Hx. apply in_app_or in Hx.
      destruct Hx as [Hx|[<-|[]]]; [auto|].
      apply Htimers. now apply nth_error_In in Hnth.
Qed.

Lemma reachable_sound n : reachable n -> sound n.
Proof.
  induction 1 as [|ev n n' Hreach IH Hstep].
  - split; [|split]; intros ? [].
  - exact (sound_step ev n n' (reachable_invariant n Hreach) IH Hstep).
Qed.

(** X8: in every response the server has written, the counts add up:
    [successfulNotifications] plus the number of [errors] is
    [totalSubscriptions], for the answer of [notifyAllUsers] and for
    every confirmation, by response or by timeout; and a confirmation
    reports at least one subscription. *)
Theorem counts_add_up (n : node) (res : nat) (code : Z) (b : body) :
  reachable n ->
  In (res, (code, b)) (sent (globals n)) ->
  match b with
  | Counts total successful errors =>
      (successful + List.length errors = total)%nat
  | Confirmation _ _ total successful errors =>
      (successful + List.length errors = total)%nat /\ (1 <= total)%nat
  | _ => True
  end.
Proof.
  intros Hreach Hin.
  exact (proj2 (proj2 (reachable_sound n Hreach)) _ Hin).
Qed.

Lemma reachable_timedOut : reachable Demo.timedOut.
Proof.
  apply (reachable_run [GetConfirm Demo.store "1" 1700000000; Timeout 0] boot).
  - exact reachable_boot.
  - reflexivity.
Qed.

Lemma counts_add_up_witness :
  (1 + List.length [dispatchError] = 2)%nat /\ (1 <= 2)%nat.
Proof.
  apply (counts_add_up Demo.timedOut 0 200
           (Confirmation (JS.Str "null") "Unknown" 2 1 [dispatchError])).
  - exact reachable_timedOut.
  - left. reflexivity.
Defined.

(** ** A duplicate after the answer *)

Lemma responsesTo_sent r st :
  responsesTo r st <> [] -> headersSent r st = true.
Proof.
  intros H. destruct (headersSent r st) eqn:Hs; [reflexivity|].
  now rewrite (responsesTo_unsent r st Hs) in H.
Qed.

Lemma step_timeout_throws n i k e :
  nth_error (timers n) i = Some k ->
  Map.get (k_key k) (alarmMap (globals n)) = Some e ->
  headersSent (k_res k) (globals n) = true ->
  confirmAlarm_wake k (globals n)
  = (Throw, with_alarmMap (Map.delete (k_key k) (alarmMap (globals n)))
                          (globals n))
  /\ step (Timeout i) n
     = Some {| globals :=
                 with_alarmMap (Map.delete (k_key k) (alarmMap (globals n)))
                               (globals n);
               timers := remove_nth i (timers n);
               nextRes := nextRes n |}.
Proof.
  intros Hk Hget Hs.
  assert (Hw : confirmAlarm_wake k (globals n)
               = (Throw,
                  with_alarmMap (Map.delete (k_key k) (alarmMap (globals n)))
                                (globals n)))
    by (rewrite confirmAlarm_wake_cases, Hget; cbv zeta; now rewrite Hs).
  split; [exact Hw|]. unfold step. now rewrite Hk, Hw.
Qed.

(** X9: a second [confirmAlarm] for the same alarm and timestamp that
    arrives after the user answered the first.  When the timer of the
    first request fires, its closure finds the entry of the second
    request under its key, deletes it and throws on its own response
    object, already written: nothing is sent.  The timer of the second
    request then finds no entry, and no step of the server ever answers
    the second request. *)
Theorem late_duplicate_unanswered (n : node) (w1 w w2 : world)
  (alarmId username : string) (timestamp : Z) (a1 a2 : alarm) (u1 u2 : Z)
  (subs1 subs2 : list subscription) (db_user : user) (confirmed : JS.value) :
  reachable n ->
  resolves w1 alarmId a1 u1 subs1 ->
  resolves w2 alarmId a2 u2 subs2 ->
  alarm_id a1 = alarm_id a2 ->
  user_findOne w username = Some db_user ->
  user_id db_user = u1 ->
  exists n3 e2 k1 n4 n5,
    run [GetConfirm w1 alarmId timestamp;
         GetResponse w username confirmed;
         GetConfirm w2 alarmId timestamp] n
    = Some n3
    /\ (exists successful errors,
           responsesTo (nextRes n) (globals n3)
           = [(200, Confirmation confirmed (alarm_location a1)
                      (List.length subs1) successful errors)])
    /\ Map.get (correlationKey a1 timestamp) (alarmMap (globals n3)) = Some e2
    /\ e_res e2 = S (S (nextRes n))
    /\ nth_error (timers n3) (List.length (timers n)) = Some k1
    /\ k_res k1 = nextRes n
    /\ confirmAlarm_wake k1 (globals n3)
       = (Throw,
          with_alarmMap
            (Map.delete (correlationKey a1 timestamp) (alarmMap (globals n3)))
            (globals n3))
    /\ step (Timeout (List.length (timers n))) n3 = Some n4
    /\ sent (globals n4) = sent (globals n3)
    /\ Map.get (correlationKey a1 timestamp) (alarmMap (globals n4)) = None
    /\ step (Timeout (List.length (timers n))) n4 = Some n5
    /\ globals n5 = globals n4
    /\ timers n5 = timers n
    /\ forall evs n6,
        run evs n5 = Some n6 ->
        responsesTo (S (S (nextRes n))) (globals n6) = [].
Proof.
  intros Hreach Hr1 Hr2 Hid Hu Huid.
  pose proof (reachable_invariant n Hreach) as Hinv.
  pose proof (correlationKey_same a1 a2 timestamp Hid) as Hkey.
  pose proof (step_afterConfirm n w1 alarmId timestamp a1 u1 subs1 Hr1) as H1.
  set (n1 := afterConfirm w1 a1 u1 subs1 timestamp n) in *.
  pose proof (reachable_step _ _ _ Hreach H1) as Hreach1.
  pose proof (reachable_invariant _ Hreach1) as Hinv1.
  pose proof (step_response n1 w username confirmed db_user Hinv1 Hu) as H2.
  set (n2 := {| globals := answered (user_id db_user) confirmed (nextRes n1)
                                    (globals n1);
                timers := timers n1; nextRes := S (nextRes n1) |}) in *.
  pose proof (reachable_step _ _ _ Hreach1 H2) as Hreach2.
  pose proof (reachable_invariant _ Hreach2) as Hinv2.
  destruct (fresh_response n2 Hinv2) as [Hf2 _].
  pose proof (step_afterConfirm n2 w2 alarmId timestamp a2 u2 subs2 Hr2) as H3.
  set (n3 := afterConfirm w2 a2 u2 subs2 timestamp n2) in *.
  pose proof (reachable_step _ _ _ Hreach2 H3) as Hreach3.
  set (tr1 := dispatches w1 (confirmPrompt w1 a1 timestamp) subs1
                (List.length (pushed (globals n)))).
  set (tr2 := dispatches w2 (confirmPrompt w2 a2 timestamp) subs2
                (List.length (pushed (globals n2)))).
  set (k1 := suspension (nextRes n) a1 timestamp subs1 tr1).
  set (k2 := suspension (S (S (nextRes n))) a2 timestamp subs2 tr2).
  set (e1 := pendingEntry (nextRes n) a1 u1 subs1 tr1).
  set (e2 := pendingEntry (S (S (nextRes n))) a2 u2 subs2 tr2).
  set (key := correlationKey a1 timestamp) in *.
  assert (Hin1 : In (key, e1) (alarmMap (globals n1)))
    by (apply Map_get_In; apply Map_get_set).
  assert (Hans : responsesTo (nextRes n) (globals n3)
                 = [snd (reply confirmed (key, e1))]).
  { change (responsesTo (nextRes n) (globals n3))
      with (responsesTo (e_res (snd (key, e1))) (globals n2)).
    apply responsesTo_owned;
      [exact (inv_wf _ Hinv1) | exact Hin1
      | apply ownedBy_true; exact (eq_sym Huid) | simpl; lia]. }
  assert (Hget3 : Map.get key (alarmMap (globals n3)) = Some e2).
  { unfold n3. cbn [afterConfirm globals alarmMap with_alarmMap].
    rewrite <- Hkey. apply Map_get_set. }
  assert (Htimers3 : timers n3 = timers n ++ [k1; k2]).
  { unfold n3, n2, n1. cbn [afterConfirm timers]. now rewrite <- app_assoc. }
  assert (Hnth1 : nth_error (timers n3) (List.length (timers n)) = Some k1)
    by (rewrite Htimers3; apply nth_error_middle).
  assert (Hs3 : headersSent (k_res k1) (globals n3) = true).
  { apply responsesTo_sent. change (k_res k1) with (nextRes n).
    rewrite Hans. discriminate. }
  destruct (step_timeout_throws n3 _ k1 e2 Hnth1 Hget3 Hs3) as [Hw H4].
  rewrite Htimers3, remove_nth_middle in H4.
  set (n4 := {| globals :=
                  with_alarmMap (Map.delete (k_key k1) (alarmMap (globals n3)))
                                (globals n3);
                timers := timers n ++ [k2];
                nextRes := nextRes n3 |}) in *.
  pose proof (reachable_step _ _ _ Hreach3 H4) as Hreach4.
  assert (Hget4 : Map.get (k_key k2) (alarmMap (globals n4)) = None).
  { unfold n4. cbn [globals alarmMap with_alarmMap].
    change (k_key k2) with (correlationKey a2 timestamp).
    rewrite <- Hkey. apply Map_get_delete. }
  assert (Hnth2 : nth_error (timers n4) (List.length (timers n)) = Some k2)
    by apply nth_error_middle.
  pose proof (step_timeout_absent n4 _ k2 Hnth2 Hget4) as H5.
  cbn [timers n4] in H5.
  replace (remove_nth (List.length (timers n)) (timers n ++ [k2]))
    with (timers n) in H5
    by (rewrite remove_nth_middle; now rewrite app_nil_r).
  set (n5 := {| globals := globals n4; timers := timers n;
                nextRes := nextRes n4 |}) in *.
  pose proof (reachable_step _ _ _ Hreach4 H5) as Hreach5.
  exists n3, e2, k1, n4, n5.
  split; [cbn [run]; rewrite H1, H2, H3; reflexivity|].
  split; [rewrite Hans; unfold reply; simpl; eauto|].
  split; [exact Hget3|]. split; [reflexivity|]. split; [exact Hnth1|].
  split; [reflexivity|]. split; [exact Hw|]. split; [exact H4|].
  split; [reflexivity|].
  split; [change key with (k_key k1); unfold n4;
          cbn [globals alarmMap with_alarmMap]; apply Map_get_delete|].
  split; [exact H5|]. split; [reflexivity|]. split; [reflexivity|].
  intros evs n6 Hrun. apply responsesTo_unsent.
  refine (proj1 (proj2 (abandoned_run (S (S (nextRes n))) evs n5 n6
                          (reachable_invariant _ Hreach5) _ Hrun))).
  split; [simpl; lia|]. split; [exact Hf2|]. split.
  - intros H. apply sinks_In in H. destruct H as [p [Hp Hres]].
    cbn [n5 n4 globals alarmMap with_alarmMap] in Hp.
    apply In_delete in Hp. destruct Hp as [Hp Hne].
    change (k_key k1) with key in Hne.
    unfold n3 in Hp. cbn [afterConfirm globals alarmMap with_alarmMap] in Hp.
    rewrite <- Hkey in Hp. fold key in Hp.
    apply In_set in Hp; [|exact (wf_keys _ (inv_wf _ Hinv2))].
    destruct Hp as [->|[Hp _]]; [now apply Hne|].
    apply (inv_map _ Hinv2) in Hp. simpl in Hp. lia.
  - simpl. intros H. apply in_map_iff in H. destruct H as [k [Hk Hin]].
    apply (inv_timers n Hinv) in Hin. lia.
Qed.

Lemma late_duplicate_unanswered_witness :
  exists n3 e2 k1 n4 n5,
    run [GetConfirm Demo.store "1" 1700000000;
         GetResponse Demo.store "Blaze" (JS.Bool false);
         GetConfirm Demo.store "1" 1700000000] boot
    = Some n3
    /\ (exists successful errors,
           responsesTo (nextRes boot) (globals n3)
           = [(200, Confirmation (JS.Bool false) (alarm_location Demo.alarm1)
                      (List.length [Demo.device "phone"; Demo.device "laptop"])
                      successful errors)])
    /\ Map.get (correlationKey Demo.alarm1 1700000000) (alarmMap (globals n3))
       = Some e2
    /\ e_res e2 = S (S (nextRes boot))
    /\ nth_error (timers n3) (List.length (timers boot)) = Some k1
    /\ k_res k1 = nextRes boot
    /\ confirmAlarm_wake k1 (globals n3)
       = (Throw,
          with_alarmMap
            (Map.delete (correlationKey Demo.alarm1 1700000000)
                        (alarmMap (globals n3)))
            (globals n3))
    /\ step (Timeout (List.length (timers boot))) n3 = Some n4
    /\ sent (globals n4) = sent (globals n3)
    /\ Map.get (correlationKey Demo.alarm1 1700000000) (alarmMap (globals n4))
       = None
    /\ step (Timeout (List.length (timers boot))) n4 = Some n5
    /\ globals n5 = globals n4
    /\ timers n5 = timers boot
    /\ forall evs n6,
        run evs n5 = Some n6 ->
        responsesTo (S (S (nextRes boot))) (globals n6) = [].
Proof.
  apply (late_duplicate_unanswered boot Demo.store Demo.store Demo.store
           "1" "Blaze" 1700000000 Demo.alarm1 Demo.alarm1 1 1
           [Demo.device "phone"; Demo.device "laptop"]
           [Demo.device "phone"; Demo.device "laptop"]
           Demo.blaze (JS.Bool false)).
  - exact reachable_boot.
  - exact resolves_demo.
  - exact resolves_demo.
  - reflexivity.
  - reflexivity.
  - reflexivity.
Defined.

(** ** unixToDate with two-digit seconds *)


Lemma two_chars (s : Z) :
  10 <= s < 60 -> String.length (JS.Number_toString s) = 2%nat.
Proof.
  intros Hs. rewrite <- (Z2Nat.id s) by lia.
  assert (H : forall n, (n < 60)%nat -> (10 <= n)%nat ->
                        String.length (JS.Number_toString (Z.of_nat n)) = 2%nat).
  { intros n Hn. do 60 (destruct n as [|n]; [(reflexivity || lia)|]). lia. }
  apply H; lia.
Qed.

(** X10: for a valid time whose local seconds are 10 or more,
    [unixToDate] is the local hour, unpadded, then the minutes and the
    seconds, each on two digits, with ":" between them; local time is
    the instant plus the offset [tz] of the host's zone, in
    milliseconds. *)
Theorem unixToDate_two_digit_seconds (tz : Z -> Z) (unix_timestamp : Z) :
  JS.validTime (unix_timestamp * 1000) = true ->
  let t := unix_timestamp * 1000 + tz (unix_timestamp * 1000) in
  let h := (t / 3600000) mod 24 in
  let m := (t / 60000) mod 60 in
  let s := (t / 1000) mod 60 in
  10 <= s ->
  unixToDate tz unix_timestamp
  = (JS.Number_toString h ++ ":"
     ++ (if (m <? 10)%Z then "0" ++ JS.Number_toString m
         else JS.Number_toString m)
     ++ ":" ++ JS.Number_toString s)%string
  /\ String.length (JS.Number_toString s) = 2%nat
  /\ String.length
       (if m <? 10 then ("0" ++ JS.Number_toString m)%string
        else JS.Number_toString m)
     = 2%nat.
Proof.
  intros Hvalid t h m s Hs.
  assert (Hsr : 10 <= s < 60)
    by (pose proof (Z.mod_pos_bound (t / 1000) 60); lia).
  assert (Hmr : 0 <= m < 60) by (apply Z.mod_pos_bound; lia).
  pose proof (two_chars s Hsr) as Hlen.
  split; [|split; [exact Hlen|]].
  - unfold unixToDate, unixToDate_fields, JS.getHours, JS.getMinutes,
      JS.getSeconds, JS.localTime.
    rewrite Hvalid. cbn [JS.toString]. fold t. fold h. fold m. fold s.
    rewrite Hlen. cbn [Nat.eqb].
    fold (padded (JS.Number_toString m)).
    rewrite !JS_substring_negative by lia.
    now rewrite padded_cases.
  - rewrite <- padded_cases by assumption. now apply two_digits.
Qed.

Lemma unixToDate_two_digit_seconds_witness :
  unixToDate (fun _ => 0) 1700000000
  = (JS.Number_toString 22 ++ ":"
     ++ (if (13 <? 10)%Z then "0" ++ JS.Number_toString 13
         else JS.Number_toString 13)
     ++ ":" ++ JS.Number_toString 20)%string
  /\ String.length (JS.Number_toString 20) = 2%nat
  /\ String.length
       (if 13 <? 10 then ("0" ++ JS.Number_toString 13)%string
        else JS.Number_toString 13)
     = 2%nat.
Proof.
  apply (unixToDate_two_digit_seconds (fun _ => 0) 1700000000).
  - reflexivity.
  - vm_compute. discriminate.
Defined.

(** ** The service worker *)

Lemma clickResponse_cases (action : string) :
  (action = "confirm"%string /\ ServiceWorker.clickResponse action = Some true)
  \/ (action = "deny"%string /\ ServiceWorker.clickResponse action = Some false)
  \/ (action <> "confirm"%string /\ action <> "deny"%string
      /\ ServiceWorker.clickResponse action = None).
Proof.
  unfold ServiceWorker.clickResponse.
  destruct (String.eqb_spec action "") as [->|Hne]; [right; right; easy|].
  destruct (String.eqb_spec action "confirm") as [->|Hc]; [now left|].
  destruct (String.eqb_spec action "deny") as [->|Hd]; [right; now left|].
  right; right. easy.
Qed.

(** X11: the prompt [confirmAlarm] pushes and the service worker fit.
    With the permission granted the worker shows it under its title with
    its message and its two buttons; the first button makes the worker
    fetch [/response] with confirmed=true, the second with
    confirmed=false; and the worker fetches [/response] for no other
    action than those two, nor for a click outside the buttons. *)
Theorem prompt_buttons_submit (w : world) (alarm : alarm) (timeStamp : Z) :
  let prompt := confirmPrompt w alarm timeStamp in
  ServiceWorker.onPush true "granted" (Some (ServiceWorker.received prompt))
  = Some ("Alarm Confirmation"%string,
          {| ServiceWorker.opt_body := message prompt;
             ServiceWorker.opt_vibrate := [300; 200; 300];
             ServiceWorker.opt_data := [];
             ServiceWorker.opt_actions := actions prompt |})
  /\ map (fun a => ServiceWorker.notificationclick (action_action a))
         (actions prompt)
     = [Some "http://141.215.80.233:4000/response?confirmed=true&userId=1"%string;
        Some "http://141.215.80.233:4000/response?confirmed=false&userId=1"%string]
  /\ forall action,
      ServiceWorker.notificationclick action <> None
      <-> In action (map action_action (actions prompt)).
Proof.
  intros prompt. split; [reflexivity|]. split; [reflexivity|].
  intros action. unfold ServiceWorker.notificationclick. simpl.
  destruct (clickResponse_cases action)
    as [[-> ->] | [[-> ->] | (Hc & Hd & ->)]].
  - split; [auto | discriminate].
  - split; [auto | discriminate].
  - split; [contradiction|].
    intros [H|[H|[]]]; congruence.
Qed.

Lemma orElse_nonempty (s : option string) (fallback : string) :
  fallback <> EmptyString -> ServiceWorker.orElse s fallback <> EmptyString.
Proof.
  intros Hf. destruct s as [[|c r]|]; simpl; auto. discriminate.
Qed.

(** X12: the worker shows a notification only when the browser has the
    Notification interface and the permission is "granted"; what it shows
    then never has an empty title or an empty body, whatever the push
    carried (missing or empty fields get the defaults), and always
    vibrates 300, 200, 300. *)
Theorem onPush_shows (hasNotification : bool) (permission : string)
  (eventData : option ServiceWorker.pushData) (shownTitle : string)
  (opts : ServiceWorker.options) :
  ServiceWorker.onPush hasNotification permission eventData
  = Some (shownTitle, opts) ->
  hasNotification = true
  /\ permission = "granted"%string
  /\ shownTitle <> EmptyString
  /\ ServiceWorker.opt_body opts <> EmptyString
  /\ ServiceWorker.opt_vibrate opts = [300; 200; 300].
Proof.
  unfold ServiceWorker.onPush.
  destruct hasNotification; simpl; [|discriminate].
  destruct (String.eqb_spec permission "granted") as [->|Hne]; simpl;
    [|discriminate].
  intros H. injection H as <- <-. simpl.
  repeat split; apply orElse_nonempty; discriminate.
Qed.

Lemma onPush_shows_witness :
  true = true
  /\ "granted"%string = "granted"%string
  /\ "Default Title"%string <> EmptyString
  /\ ServiceWorker.opt_body
       {| ServiceWorker.opt_body := "Fire confirmed in room 104.";
          ServiceWorker.opt_vibrate := [300; 200; 300];
          ServiceWorker.opt_data := [];
          ServiceWorker.opt_actions := [] |}
     <> EmptyString
  /\ ServiceWorker.opt_vibrate
       {| ServiceWorker.opt_body := "Fire confirmed in room 104.";
          ServiceWorker.opt_vibrate := [300; 200; 300];
          ServiceWorker.opt_data := [];
          ServiceWorker.opt_actions := [] |}
     = [300; 200; 300].
Proof.
  apply (onPush_shows true "granted"
           (Some {| ServiceWorker.data_title := Some ""%string;
                    ServiceWorker.data_message :=
                      Some "Fire confirmed in room 104."%string;
                    ServiceWorker.data_actions := None;
                    ServiceWorker.data_metadata := None |})).
  reflexivity.
Defined.

(** ** The two ends of a /confirm request, and /notify beside it *)

(** X13: a request to [/confirm] ends in one of two ways.  Either it is
    answered at once with a 404 or a 500, and then no call was made to the
    push service, the map is as before and no closure waits; or nothing
    is written to it, its entry is in the map under its key and its
    closure waits on a timer of 15000 ms with the same data. *)
Theorem confirm_rejected_or_waiting (n n' : node) (w : world)
  (alarmId : string) (timestamp : Z) :
  reachable n ->
  step (GetConfirm w alarmId timestamp) n = Some n' ->
  (exists code msg,
      (code = 404 \/ code = 500)
      /\ sent (globals n')
         = sent (globals n) ++ [(nextRes n, (code, Error msg))]
      /\ pushed (globals n') = pushed (globals n)
      /\ alarmMap (globals n') = alarmMap (globals n)
      /\ timers n' = timers n)
  \/ (exists k e,
         sent (globals n') = sent (globals n)
         /\ timers n' = timers n ++ [k]
         /\ k_res k = nextRes n
         /\ Map.get (k_key k) (alarmMap (globals n')) = Some e
         /\ twin k (k_key k, e)).
Proof.
  intros Hreach Hstep.
  pose proof (reachable_invariant n Hreach) as Hinv.
  destruct (fresh_response n Hinv) as [Hf _].
  unfold step in Hstep.
  destruct (confirmAlarm_cases w alarmId timestamp (nextRes n) (globals n) Hf)
    as [(code & msg & Hcode & Heq) | (alarm & u & subs & Heq)];
    cbv zeta in Heq; rewrite Heq in Hstep; injection Hstep as <-.
  - left. exists code, msg. auto.
  - right. do 2 eexists. cbn [globals timers sent with_alarmMap with_pushed
                              alarmMap].
    split; [reflexivity|]. split; [reflexivity|]. split; [reflexivity|].
    split; [apply Map_get_set|]. repeat split.
Qed.

Lemma confirm_rejected_or_waiting_witness :
  (exists code msg,
      (code = 404 \/ code = 500)
      /\ sent (globals Demo.waiting)
         = sent (globals boot) ++ [(nextRes boot, (code, Error msg))]
      /\ pushed (globals Demo.waiting) = pushed (globals boot)
      /\ alarmMap (globals Demo.waiting) = alarmMap (globals boot)
      /\ timers Demo.waiting = timers boot)
  \/ (exists k e,
         sent (globals Demo.waiting) = sent (globals boot)
         /\ timers Demo.waiting = timers boot ++ [k]
         /\ k_res k = nextRes boot
         /\ Map.get (k_key k) (alarmMap (globals Demo.waiting)) = Some e
         /\ twin k (k_key k, e)).
Proof.
  apply (confirm_rejected_or_waiting boot Demo.waiting Demo.store "1"
           1700000000).
  - exact reachable_boot.
  - reflexivity.
Defined.

(** X14: [notifyAllUsers] stays out of the confirmations: whatever it
    finds, it leaves the map and the waiting closures as they are and
    writes to no request but its own. *)
Theorem notifyAllUsers_apart (n n' : node) (w : world)
  (payload : notification) :
  reachable n ->
  step (PostNotify w payload) n = Some n' ->
  alarmMap (globals n') = alarmMap (globals n)
  /\ timers n' = timers n
  /\ forall r, r <> nextRes n ->
               responsesTo r (globals n') = responsesTo r (globals n).
Proof.
  intros Hreach Hstep.
  pose proof (reachable_invariant n Hreach) as Hinv.
  destruct (step_notify_cases n w payload n' Hinv Hstep) as [-> | [subs ->]].
  - auto.
  - cbv zeta. cbn [globals timers]. split; [reflexivity|].
    split; [reflexivity|].
    intros r Hr. rewrite responsesTo_write.
    replace (nextRes n =? r)%nat with false
      by (symmetry; apply Nat.eqb_neq; congruence).
    now rewrite app_nil_r.
Qed.

Lemma notifyAllUsers_apart_witness :
  alarmMap (globals Demo.notified) = alarmMap (globals Demo.waiting)
  /\ timers Demo.notified = timers Demo.waiting
  /\ forall r, r <> nextRes Demo.waiting ->
               responsesTo r (globals Demo.notified)
               = responsesTo r (globals Demo.waiting).
Proof.
  apply (notifyAllUsers_apart Demo.waiting Demo.notified Demo.store Demo.alert).
  - exact reachable_waiting.
  - reflexivity.
Defined.

(** * Completions, from the first to the last state *)

(** ** A settled request stays settled *)

Lemma step_timeout_writes n i n' :
  step (Timeout i) n = Some n' ->
  exists k,
    nth_error (timers n) i = Some k
    /\ timers n' = remove_nth i (timers n)
    /\ nextRes n' = nextRes n
    /\ (globals n' = globals n
        \/ globals n'
           = with_alarmMap (Map.delete (k_key k) (alarmMap (globals n)))
                           (globals n)
        \/ (headersSent (k_res k) (globals n) = false
            /\ globals n'
               = write (k_res k) 200 (timeoutBody k)
                   (with_alarmMap
                      (Map.delete (k_key k) (alarmMap (globals n)))
                      (globals n)))).
Proof.
  unfold step. destruct (nth_error (timers n) i) as [k|]; [|discriminate].
  rewrite confirmAlarm_wake_cases. intros Hstep. exists k.
  split; [reflexivity|].
  destruct (Map.get (k_key k) (alarmMap (globals n))) as [e|].
  - cbv zeta in Hstep.
    destruct (headersSent (k_res k) (globals n)) eqn:Hs;
      injection Hstep as <-; cbn [globals timers nextRes];
      (split; [reflexivity | split; [reflexivity|]]).
    + right; left; reflexivity.
    + right; right. split; reflexivity.
  - injection Hstep as <-. cbn [globals timers nextRes]. auto.
Qed.






(** ** At most one response per entry *)



(** ** A response while the entry is in the map *)

Lemma In_set_other key v m p :
  In p m -> fst p <> key -> In p (Map.set key v m).
Proof.
  induction m as [|[k x] m IH]; simpl; [intros []|].
  intros [<-|Hin] Hne.
  - simpl in Hne.
    destruct (String.eqb_spec k key) as [->|_]; [contradiction | now left].
  - destruct (k =? key)%string; right; auto.
Qed.

Lemma spared_step p ev n n' :
  invariant n ->
  In p (alarmMap (globals n)) ->
  spares (fst p) (e_userId (snd p)) ev n ->
  step ev n = Some n' ->
  In p (alarmMap (globals n')).
Proof.
  intros Hinv Hp Hsp Hstep.
  destruct ev as [w alarmId timestamp | w username confirmed | w payload | i];
    simpl in Hsp.
  - destruct (step_confirm_cases n w alarmId timestamp n' Hinv Hstep)
      as [(code & msg & ->) | (alarm & u & subs & Hres & ->)].
    + exact Hp.
    + cbn [afterConfirm globals alarmMap with_alarmMap].
      apply In_set_other; [exact Hp|].
      intros Heq. exact (Hsp alarm u subs Hres (eq_sym Heq)).
  - destruct (user_findOne w username) as [db_user|] eqn:Hu.
    + rewrite (step_response n w username confirmed db_user Hinv Hu) in Hstep.
      injection Hstep as <-. cbn [globals answered alarmMap].
      apply filter_In. split; [exact Hp|].
      apply negb_true_iff, ownedBy_false.
      intros Heq. exact (Hsp db_user eq_refl (eq_sym Heq)).
    + unfold step, logResponse, bind, query in Hstep. rewrite Hu in Hstep.
      now injection Hstep as <-.
  - destruct (step_notify_cases n w payload n' Hinv Hstep)
      as [-> | [subs ->]]; exact Hp.
  - destruct (step_timeout_writes n i n' Hstep)
      as (k & Hk & _ & _ & Hcases).
    pose proof (Hsp k Hk) as Hne.
    destruct Hcases as [-> | [-> | [_ ->]]]; [exact Hp| |];
      cbn [alarmMap write with_alarmMap]; apply In_delete; auto.
Qed.

Lemma spared_run p evs :
  forall n n',
    invariant n ->
    In p (alarmMap (globals n)) ->
    sparing (fst p) (e_userId (snd p)) evs n ->
    run evs n = Some n' ->
    In p (alarmMap (globals n')).
Proof.
  induction evs as [|ev evs IH]; simpl; intros n n' Hinv Hp Hsp Hrun.
  - now injection Hrun as <-.
  - destruct (step ev n) as [n1|] eqn:Hstep; [|discriminate].
    destruct Hsp as [Hev Hrest].
    apply (IH n1 n'); [| | |assumption].
    + exact (step_invariant ev n n1 Hinv Hstep).
    + exact (spared_step p ev n n1 Hinv Hp Hev Hstep).
    + now apply Hrest.
Qed.

(** C2, as the code has it: after [confirmAlarm] for an alarm with a user
    and at least one subscription, a response of the owning user with
    [confirmed] true or false that arrives while the entry stored by that
    call is still in the map is what the waiting request receives, with
    the location of the alarm, the number of subscriptions, and the
    successes and errors its own fan-out counted from the outcomes the
    push service gave.  The entry is still in the map after every run in
    which no [confirmAlarm] stored under its key, its user gave no
    response, and no closure suspended under its key woke (its own timer
    or that of an earlier call for the same alarm and timestamp). *)
Theorem confirmAlarm_then_response (n : node) (w w' : world)
  (alarmId username : string) (timestamp : Z) (alarm : alarm) (userId : Z)
  (dbSubscriptions : list subscription) (db_user : user) (c : bool) :
  reachable n ->
  resolves w alarmId alarm userId dbSubscriptions ->
  user_findOne w' username = Some db_user ->
  user_id db_user = userId ->
  exists n1 t errors,
    step (GetConfirm w alarmId timestamp) n = Some n1
    /\ pushed (globals n1) = pushed (globals n) ++ t
    /\ List.length t = List.length dbSubscriptions
    /\ (forall i subscription,
           nth_error dbSubscriptions i = Some subscription ->
           nth_error t i
           = Some {| d_sub := toPushSubscription subscription;
                     d_payload := confirmPrompt w alarm timestamp;
                     d_ok := sendNotification w
                               (List.length (pushed (globals n)) + i)
                               (toPushSubscription subscription)
                               (confirmPrompt w alarm timestamp) |})
    /\ map d_sub t = map toPushSubscription dbSubscriptions
    /\ errors = repeat dispatchError (failures t)
    /\ List.length errors = failures t
    /\ Map.get (correlationKey alarm timestamp) (alarmMap (globals n1))
       = Some (pendingEntry (nextRes n) alarm userId dbSubscriptions t)
    /\ (forall evs n2,
           run evs n1 = Some n2 ->
           In (correlationKey alarm timestamp,
               pendingEntry (nextRes n) alarm userId dbSubscriptions t)
              (alarmMap (globals n2)) ->
           exists n3,
             step (GetResponse w' username (JS.Bool c)) n2 = Some n3
             /\ responsesTo (nextRes n) (globals n3)
                = [(200, Confirmation (JS.Bool c) (alarm_location alarm)
                           (List.length dbSubscriptions)
                           (List.length dbSubscriptions - failures t) errors)]
             /\ Map.get (correlationKey alarm timestamp)
                        (alarmMap (globals n3))
                = None)
    /\ (forall evs n2,
           run evs n1 = Some n2 ->
           sparing (correlationKey alarm timestamp) userId evs n1 ->
           In (correlationKey alarm timestamp,
               pendingEntry (nextRes n) alarm userId dbSubscriptions t)
              (alarmMap (globals n2))).
Proof.
  intros Hreach Hres Hu Hid.
  pose proof (step_confirm_found n w alarmId timestamp alarm userId
                dbSubscriptions Hres) as Hstep.
  cbv zeta in Hstep.
  set (t := dispatches w (confirmPrompt w alarm timestamp) dbSubscriptions
              (List.length (pushed (globals n)))) in *.
  pose proof (reachable_step _ _ _ Hreach Hstep) as Hreach1.
  eexists. exists t, (repeat dispatchError (failures t)).
  split; [exact Hstep|]. cbn [globals pushed with_alarmMap with_pushed alarmMap].
  split; [reflexivity|]. split; [apply dispatches_length|].
  split; [intros i s Hs; now apply dispatches_nth|].
  split; [apply dispatches_subs|]. split; [reflexivity|].
  split; [apply repeat_length|]. split; [apply Map_get_set|].
  set (p := (correlationKey alarm timestamp,
             pendingEntry (nextRes n) alarm userId dbSubscriptions t)) in *.
  split.
  - intros evs n2 Hrun Hin.
    pose proof (reachable_invariant _ (reachable_run _ _ _ Hreach1 Hrun))
      as Hinv2.
    rewrite (step_response n2 w' username (JS.Bool c) db_user Hinv2 Hu).
    eexists. split; [reflexivity|]. cbn [globals].
    assert (Hown : ownedBy (user_id db_user) p = true)
      by (apply ownedBy_true; simpl; congruence).
    split.
    + change (nextRes n) with (e_res (snd p)).
      rewrite responsesTo_owned; auto; [exact (inv_wf _ Hinv2)|].
      pose proof (inv_map _ Hinv2 p Hin). lia.
    + change (correlationKey alarm timestamp) with (fst p).
      apply answered_get_owned; auto. exact (inv_wf _ Hinv2).
  - intros evs n2 Hrun Hsp.
    refine (spared_run p evs _ n2 (reachable_invariant _ Hreach1) _ Hsp Hrun).
    cbn [globals alarmMap with_alarmMap].
    apply Map_get_In. apply Map_get_set.
Qed.

Lemma confirmAlarm_then_response_witness :
  exists n1 t errors,
    step (GetConfirm Demo.store "1" 1700000000) boot = Some n1
    /\ pushed (globals n1) = pushed (globals boot) ++ t
    /\ List.length t
       = List.length [Demo.device "phone"; Demo.device "laptop"]
    /\ (forall i subscription,
           nth_error [Demo.device "phone"; Demo.device "laptop"] i
           = Some subscription ->
           nth_error t i
           = Some {| d_sub := toPushSubscription subscription;
                     d_payload := confirmPrompt Demo.store Demo.alarm1
                                    1700000000;
                     d_ok := sendNotification Demo.store
                               (List.length (pushed (globals boot)) + i)
                               (toPushSubscription subscription)
                               (confirmPrompt Demo.store Demo.alarm1
                                  1700000000) |})
    /\ map d_sub t
       = map toPushSubscription [Demo.device "phone"; Demo.device "laptop"]
    /\ errors = repeat dispatchError (failures t)
    /\ List.length errors = failures t
    /\ Map.get (correlationKey Demo.alarm1 1700000000) (alarmMap (globals n1))
       = Some (pendingEntry (nextRes boot) Demo.alarm1 1
                 [Demo.device "phone"; Demo.device "laptop"] t)
    /\ (forall evs n2,
           run evs n1 = Some n2 ->
           In (correlationKey Demo.alarm1 1700000000,
               pendingEntry (nextRes boot) Demo.alarm1 1
                 [Demo.device "phone"; Demo.device "laptop"] t)
              (alarmMap (globals n2)) ->
           exists n3,
             step (GetResponse Demo.store "Blaze" (JS.Bool true)) n2 = Some n3
             /\ responsesTo (nextRes boot) (globals n3)
                = [(200, Confirmation (JS.Bool true)
                           (alarm_location Demo.alarm1)
                           (List.length
                              [Demo.device "phone"; Demo.device "laptop"])
                           (List.length
                              [Demo.device "phone"; Demo.device "laptop"]
                            - failures t) errors)]
             /\ Map.get (correlationKey Demo.alarm1 1700000000)
                        (alarmMap (globals n3))
                = None)
    /\ (forall evs n2,
           run evs n1 = Some n2 ->
           sparing (correlationKey Demo.alarm1 1700000000) 1 evs n1 ->
           In (correlationKey Demo.alarm1 1700000000,
               pendingEntry (nextRes boot) Demo.alarm1 1
                 [Demo.device "phone"; Demo.device "laptop"] t)
              (alarmMap (globals n2))).
Proof.
  apply (confirmAlarm_then_response boot Demo.store Demo.store "1" "Blaze"
           1700000000 Demo.alarm1 1
           [Demo.device "phone"; Demo.device "laptop"] Demo.blaze true).
  - exact reachable_boot.
  - exact resolves_demo.
  - reflexivity.
  - reflexivity.
Defined.

(** The user answers after a [/notify] and the timeout of another alarm's
    request came in between: the confirmation still reaches request 0. *)
Example response_after_other_traffic :
  option_map (fun n => responsesTo 0 (globals n))
    (run [GetConfirm Demo.store "1" 1700000000;
          PostNotify Demo.store Demo.alert;
          GetConfirm Demo.store "1" 1700000060;
          Timeout 1;
          GetResponse Demo.store "Blaze" (JS.Bool false)] boot)
  = Some [(200, Confirmation (JS.Bool false) "Unknown" 2 1 [dispatchError])].
Proof. reflexivity. Qed.

(** ** Counterexamples *)


Lemma reachable_askedTwice : reachable Demo.askedTwice.
Proof.
  apply (reachable_run
           [GetConfirm Demo.store "1" 1700000000;
            GetConfirm Demo.store "1" 1700000000;
            GetResponse Demo.store "Blaze" (JS.Bool true)] boot).
  - exact reachable_boot.
  - reflexivity.
Qed.


(** C2 as the specification states it does not hold: a request whose
    entry was overwritten is not answered by the response of the user.  The controller asks twice for
    the same alarm and timestamp (requests 0 and 1; the entry of request
    1 replaces that of request 0), then the user confirms while both
    timers are still running.  [logResponse] answers request 1 and
    deletes the entry; request 0 gets nothing.  Its timer then finds no
    entry, and no later step writes to request 0. *)
Lemma overwritten_request_misses_response :
  resolves Demo.store "1" Demo.alarm1 1
           [Demo.device "phone"; Demo.device "laptop"]
  /\ user_findOne Demo.store "Blaze" = Some Demo.blaze
  /\ alarm_userId Demo.alarm1 = Some (user_id Demo.blaze)
  /\ run [GetConfirm Demo.store "1" 1700000000;
          GetConfirm Demo.store "1" 1700000000;
          GetResponse Demo.store "Blaze" (JS.Bool true)] boot
     = Some Demo.askedTwice
  /\ map k_res (timers Demo.askedTwice) = [0; 1]%nat
  /\ responsesTo 0 (globals Demo.askedTwice) = []
  /\ responsesTo 1 (globals Demo.askedTwice)
     = [(200, Confirmation (JS.Bool true) "Unknown" 2 2 [])]
  /\ responsesTo 2 (globals Demo.askedTwice)
     = [(200, Text "Response received")]
  /\ alarmMap (globals Demo.askedTwice) = []
  /\ exists n4,
       step (Timeout 0) Demo.askedTwice = Some n4
       /\ globals n4 = globals Demo.askedTwice
       /\ map k_res (timers n4) = [1%nat]
       /\ forall evs n5,
           run evs n4 = Some n5 -> responsesTo 0 (globals n5) = [].
Proof.
  split; [exact resolves_demo|]. split; [reflexivity|].
  split; [reflexivity|]. split; [reflexivity|]. split; [reflexivity|].
  split; [reflexivity|]. split; [reflexivity|]. split; [reflexivity|].
  split; [reflexivity|].
  assert (Hstep : exists n4, step (Timeout 0) Demo.askedTwice = Some n4)
    by (eexists; reflexivity).
  destruct Hstep as [n4 Hstep]. exists n4.
  pose proof (reachable_step _ _ _ reachable_askedTwice Hstep) as Hreach.
  injection Hstep as <-.
  split; [reflexivity|]. split; [reflexivity|]. split; [reflexivity|].
  intros evs n5 Hrun. apply responsesTo_unsent.
  refine (proj1 (proj2 (abandoned_run 0 evs _ n5
                          (reachable_invariant _ Hreach) _ Hrun))).
  split; [simpl; lia|]. split; [reflexivity|].
  split; simpl; intros H; intuition discriminate.
Qed.

